(** * SPH water simulation engine (src/sph.js): spatial hash, density and
    pressure pass, force pass, integrator and step.

    The engine is written once, over an interface [JsNumber] of the
    arithmetic JavaScript's Number gives the source (+, -, *, /, Math.sqrt,
    Math.floor, <, ToBoolean for [||], ToInt32 for [^], Math.PI), and is
    instantiated twice:

    - [float_number]: IEEE-754 binary64, round to nearest even, as a
      JavaScript engine evaluates the source; every definition computes.
      The boundary handling, the density of an isolated particle and the
      two-particle scenario are proved here, from the axioms that specify
      the primitive floats.
    - [real_number]: the same operations on the real numbers, without
      rounding, overflow or NaN. The geometric and algebraic properties
      (no neighbor within the radius is missed, lower bound of the
      density, gravity and hand-force sums) are proved here.

    Properties of the loops and of the hash that need no arithmetic
    (what each pass writes, what a rebuilt bucket holds, determinism of
    step) are proved for any instance.

    The integer side of the spatial hash (ToInt32 wrap-around and the XOR
    of the two products) is modelled bit for bit on [Z] in both.

    The particle objects are shared between the array [particles] and the
    buckets of the hash; the array is the store and a bucket holds indices
    into it.

    The last part of the file covers what surrounds the engine: spawnBlob
    and spawnGrid, with the values of Math.random as a parameter; the hand
    tracker's computeHandForces and onResults (src/handtracker.js); and,
    of the renderer (src/renderer.js), cycleColor and the threshold of the
    pixel loop. *)

From Stdlib Require Import ZArith List Reals Lra Lia Floats.
From stdpp Require Import base option list gmap sorting strings.

Set Default Proof Using "Type".

(** ** The arithmetic of a JavaScript Number *)

Class JsNumber (T : Type) := {
  num_of_Z : Z → T;        (* an integer literal *)
  num_add : T → T → T;
  num_sub : T → T → T;
  num_mul : T → T → T;
  num_div : T → T → T;
  num_sqrt : T → T;        (* Math.sqrt *)
  num_floor : T → T;       (* Math.floor *)
  num_ltb : T → T → bool;  (* a < b; a > b is b < a *)
  num_truthy : T → bool;   (* ToBoolean, which decides a || b *)
  num_toInt32 : T → Z;     (* ToInt32, applied to the operands of ^ *)
  num_PI : T;              (* Math.PI *)
}.

Declare Scope js_scope.
Delimit Scope js_scope with js.
Notation "a + b" := (num_add a b) : js_scope.
Notation "a - b" := (num_sub a b) : js_scope.
Notation "a * b" := (num_mul a b) : js_scope.
Notation "a / b" := (num_div a b) : js_scope.
Notation "a <? b" := (num_ltb a b) : js_scope.
Notation "a >? b" := (num_ltb b a) : js_scope.
Notation "# z" := (num_of_Z z%Z) (at level 9, z at level 9, format "# z") : js_scope.

(** ToInt32 on an integer: reduction modulo 2^32 into [-2^31, 2^31). *)
Definition wrap32 (z : Z) : Z := ((z + 2 ^ 31) mod 2 ^ 32 - 2 ^ 31)%Z.

(** The operator [^] on two values already converted by ToInt32. *)
Definition int32_xor (a b : Z) : Z := Z.lxor a b.

(** *** IEEE-754 binary64 *)

Module Float64.

(** The double nearest to an integer (exact below 2^53). *)
Definition of_Z (z : Z) : float :=
  SF2Prim (binary_normalize prec emax z 0 false).

(** Math.floor: zeros, infinities and NaN are returned as they are; a
    finite [(-1)^s * m * 2^e] with [e >= 0] is already an integer. *)
Definition floor (x : float) : float :=
  match Prim2SF x with
  | S754_finite s m e =>
      if (0 <=? e)%Z then x
      else
        let d := (2 ^ (- e))%Z in
        if s then of_Z (- ((Z.pos m + d - 1) / d))%Z
        else of_Z (Z.pos m / d)%Z
  | _ => x
  end.

(** The integer part, rounded toward zero; 0 for NaN and infinities. *)
Definition trunc (x : float) : Z :=
  match Prim2SF x with
  | S754_finite s m e =>
      let a := if (0 <=? e)%Z then (Z.pos m * 2 ^ e)%Z
               else (Z.pos m / 2 ^ (- e))%Z in
      if s then (- a)%Z else a
  | _ => 0%Z
  end.

Definition toInt32 (x : float) : Z := wrap32 (trunc x).

(** ToBoolean: false for +0, -0 and NaN. *)
Definition truthy (x : float) : bool :=
  negb (PrimFloat.is_zero x || PrimFloat.is_nan x).

(** Math.PI = 0x1.921fb54442d18p+1. *)
Definition PI : float := 0x1.921fb54442d18p+1%float.

End Float64.

#[export] Instance float_number : JsNumber float := {|
  num_of_Z := Float64.of_Z;
  num_add := PrimFloat.add;
  num_sub := PrimFloat.sub;
  num_mul := PrimFloat.mul;
  num_div := PrimFloat.div;
  num_sqrt := PrimFloat.sqrt;
  num_floor := Float64.floor;
  num_ltb := PrimFloat.ltb;
  num_truthy := Float64.truthy;
  num_toInt32 := Float64.toInt32;
  num_PI := Float64.PI;
|}.

(** *** Exact real arithmetic *)

Module Exact.

Definition ltb (a b : R) : bool := if Rlt_dec a b then true else false.

Definition floor (r : R) : R := IZR (Int_part r).

Definition trunc (r : R) : Z :=
  if Rlt_dec r 0 then (- Int_part (- r))%Z else Int_part r.

Definition toInt32 (r : R) : Z := wrap32 (trunc r).

Definition truthy (r : R) : bool := if Req_dec_T r 0 then false else true.

End Exact.

#[export] Instance real_number : JsNumber R := {|
  num_of_Z := IZR;
  num_add := Rplus;
  num_sub := Rminus;
  num_mul := Rmult;
  num_div := Rdiv;
  num_sqrt := R_sqrt.sqrt;
  num_floor := Exact.floor;
  num_ltb := Exact.ltb;
  num_truthy := Exact.truthy;
  num_toInt32 := Exact.toInt32;
  num_PI := Rtrigo1.PI;
|}.

(** ** The engine *)

Section Engine.

Context {T : Type} {number : JsNumber T}.
Local Open Scope js_scope.

(** The decimal literal [m * 10^-k]: the quotient of two integers that a
    double holds exactly is, after the one rounding of the division, the
    double nearest to the decimal, which is what the literal denotes. *)
Definition dec (m : Z) (k : nat) : T := #m / #(10 ^ Z.of_nat k).

(** Math.pow with a natural exponent, as a repeated product (exact on
    doubles for the two powers of 35 the source takes). *)
Fixpoint Math_pow (b : T) (n : nat) : T :=
  match n with
  | O => #1
  | S n' => b * Math_pow b n'
  end.

(** Kernel radius *)
Definition H : T := #35.
Definition H2 : T := H * H.
Definition H4 : T := H2 * H2.
Definition H8 : T := H4 * H4.

(** SPH kernel constants (2D) *)
Definition POLY6_COEFF : T := #4 / (num_PI * Math_pow H 8).
Definition SPIKY_GRAD_COEFF : T := #(-10) / (num_PI * Math_pow H 5).
Definition VISC_LAP_COEFF : T := #40 / (num_PI * Math_pow H 5).

(** Simulation parameters *)
Definition REST_DENSITY : T := #1000.
Definition GAS_CONSTANT : T := #2000.
Definition VISCOSITY : T := #250.
Definition PARTICLE_MASS : T := #65.
Definition DT : T := dec 8 4.
Definition DT_MAX : T := dec 3 3.
Definition SUBSTEPS : nat := 4.
Definition DAMPING : T := dec (-5) 1.
Definition PARTICLE_RADIUS : T := #6.

(** The guards 0.0001 of the source. *)
Definition EPS : T := dec 1 4.

(** A particle object; the fields x, y, vx, vy, fx, fy, density and
    pressure of the source, prefixed. *)
Record particle := Particle {
  p_x : T; p_y : T;
  p_vx : T; p_vy : T;
  p_fx : T; p_fy : T;
  p_density : T;
  p_pressure : T;
}.

(** createParticle(x, y, vx = 0, vy = 0) *)
Definition createParticle (x y vx vy : T) : particle :=
  Particle x y vx vy #0 #0 #0 #0.

(** A hand force {x, y, vx, vy, radius}; [None] is an absent radius. *)
Record hand_force := HandForce {
  h_x : T; h_y : T;
  h_vx : T; h_vy : T;
  h_radius : option T;
}.

(** *** class SpatialHash

    The buckets hold references to the particle objects of the
    simulation; a reference is modelled as the particle's index in
    [particles], the store those objects live in. *)
Record SpatialHash := MkSpatialHash {
  cellSize : T;
  grid : gmap Z (list nat);
}.

Definition new_SpatialHash (cs : T) : SpatialHash := MkSpatialHash cs ∅.

Definition clear (sh : SpatialHash) : SpatialHash :=
  MkSpatialHash (cellSize sh) ∅.

(** The key of the cell with coordinates [cx], [cy]. *)
Definition cellKey (cx cy : T) : Z :=
  int32_xor (num_toInt32 (cx * #73856093)) (num_toInt32 (cy * #19349663)).

Definition getKey (sh : SpatialHash) (x y : T) : Z :=
  let cx := num_floor (x / cellSize sh) in
  let cy := num_floor (y / cellSize sh) in
  cellKey cx cy.

(** insert(particle), for the particle [p] stored at index [i]. *)
Definition insert (sh : SpatialHash) (i : nat) (p : particle) : SpatialHash :=
  let key := getKey sh (p_x p) (p_y p) in
  MkSpatialHash (cellSize sh)
    (<[key := default [] (grid sh !! key) ++ [i]]> (grid sh)).

(** The values of [dx] and of [dy] in the two loops of getNeighbors. *)
Definition offsets : list Z := [-1; 0; 1]%Z.

Definition getNeighbors (sh : SpatialHash) (x y : T) : list nat :=
  let cx := num_floor (x / cellSize sh) in
  let cy := num_floor (y / cellSize sh) in
  flat_map (λ dx : Z,
    flat_map (λ dy : Z,
      let key := cellKey (cx + #dx) (cy + #dy) in
      default [] (grid sh !! key)) offsets) offsets.

(** *** class SPHSimulation *)
Record SPHSimulation := MkSim {
  width : T;
  height : T;
  particles : list particle;
  gravity : T * T;
  gravityEnabled : bool;
  spatialHash : SpatialHash;
  handForces : list hand_force;
}.

Definition new_SPHSimulation (w h : T) : SPHSimulation :=
  MkSim w h [] (#0, #400) true (new_SpatialHash H) [].

Definition resize (s : SPHSimulation) (w h : T) : SPHSimulation :=
  MkSim w h (particles s) (gravity s) (gravityEnabled s) (spatialHash s)
    (handForces s).


Definition set_particles (s : SPHSimulation) (ps : list particle)
  : SPHSimulation :=
  MkSim (width s) (height s) ps (gravity s) (gravityEnabled s)
    (spatialHash s) (handForces s).

Definition set_spatialHash (s : SPHSimulation) (sh : SpatialHash)
  : SPHSimulation :=
  MkSim (width s) (height s) (particles s) (gravity s) (gravityEnabled s)
    sh (handForces s).

(** [for (let i = 0; i < particles.length; i++) { const pi = particles[i]; ... }]
    where the body updates the object [particles[i]] in place and may read
    the other objects of the store. *)
Definition for_each_particle
    (body : list particle → nat → particle → particle)
    (ps : list particle) : list particle :=
  foldl (λ st i,
           match st !! i with
           | Some p => <[i := body st i p]> st
           | None => st
           end) ps (seq 0 (length ps)).

(** The loop body of computeDensityPressure over the neighbors:
    [acc] is pi.density. *)
Definition density_term (pi pj : particle) (acc : T) : T :=
  let dx := p_x pj - p_x pi in
  let dy := p_y pj - p_y pi in
  let r2 := dx * dx + dy * dy in
  if r2 <? H2 then
    let diff := H2 - r2 in
    acc + PARTICLE_MASS * POLY6_COEFF * diff * diff * diff
  else acc.

(** The loop over the neighbors; an index the store does not hold, which
    only a hash that was not rebuilt can contain, is skipped. *)
Definition density_of (st : list particle) (neighbors : list nat)
    (pi : particle) : T :=
  foldl (λ acc j,
           match st !! j with
           | Some pj => density_term pi pj acc
           | None => acc
           end) #0 neighbors.

Definition density_body (hash : SpatialHash)
    (st : list particle) (i : nat) (pi : particle) : particle :=
  let neighbors := getNeighbors hash (p_x pi) (p_y pi) in
  let d := density_of st neighbors pi in
  Particle (p_x pi) (p_y pi) (p_vx pi) (p_vy pi) (p_fx pi) (p_fy pi)
    d (GAS_CONSTANT * (d - REST_DENSITY)).

Definition computeDensityPressure (s : SPHSimulation) : SPHSimulation :=
  set_particles s
    (for_each_particle (density_body (spatialHash s)) (particles s)).

(** The guard of the pairwise force loop: [r2 < H2 && r2 > 0.0001]. *)
Definition pair_r2 (pi pj : particle) : T :=
  let dx := p_x pj - p_x pi in
  let dy := p_y pj - p_y pi in
  dx * dx + dy * dy.

Definition interacts (pi pj : particle) : bool :=
  (pair_r2 pi pj <? H2) && (pair_r2 pi pj >? EPS).

(** The accumulators fpx, fpy, fvx, fvy of computeForces. *)
Definition pair_acc : Type := T * T * T * T.

Definition force_term (pi pj : particle) (acc : pair_acc) : pair_acc :=
  let '(fpx, fpy, fvx, fvy) := acc in
  let dx := p_x pj - p_x pi in
  let dy := p_y pj - p_y pi in
  let r2 := dx * dx + dy * dy in
  if (r2 <? H2) && (r2 >? EPS) then
    let r := num_sqrt r2 in
    let diff := H - r in
    (* Pressure force (Spiky kernel gradient) *)
    let pressureScale :=
      SPIKY_GRAD_COEFF * diff * diff * (p_pressure pi + p_pressure pj)
      / (#2 * p_density pj + EPS) * PARTICLE_MASS in
    (* Viscosity force (Viscosity kernel Laplacian) *)
    let viscScale :=
      VISC_LAP_COEFF * diff * VISCOSITY * PARTICLE_MASS
      / (p_density pj + EPS) in
    (fpx + (dx / r) * pressureScale,
     fpy + (dy / r) * pressureScale,
     fvx + (p_vx pj - p_vx pi) * viscScale,
     fvy + (p_vy pj - p_vy pi) * viscScale)
  else acc.

Definition pair_forces (st : list particle) (neighbors : list nat)
    (i : nat) (pi : particle) : pair_acc :=
  foldl (λ acc j,
           if decide (i = j) then acc            (* if (pi === pj) continue *)
           else match st !! j with
                | Some pj => force_term pi pj acc
                | None => acc
                end) (#0, #0, #0, #0) neighbors.

(** [hand.radius || 80] *)
Definition hand_radius (hand : hand_force) : T :=
  match h_radius hand with
  | Some r => if num_truthy r then r else #80
  | None => #80
  end.

Definition set_force (p : particle) (fx fy : T) : particle :=
  Particle (p_x p) (p_y p) (p_vx p) (p_vy p) fx fy (p_density p) (p_pressure p).

(** One iteration of the hand loop on the particle [pi]. *)
Definition hand_term (pi : particle) (hand : hand_force) : particle :=
  let hdx := p_x pi - h_x hand in
  let hdy := p_y pi - h_y hand in
  let hDist2 := hdx * hdx + hdy * hdy in
  let hRadius := hand_radius hand in
  let hRadius2 := hRadius * hRadius in
  if (hDist2 <? hRadius2) && (hDist2 >? #1) then
    let hDist := num_sqrt hDist2 in
    let influence := #1 - hDist / hRadius in
    let strength := #8000 * influence * influence in
    let dragStrength := #3000 * influence in
    (* Push particles away from hand center, then drag them with the
       hand velocity *)
    set_force pi
      (p_fx pi + (hdx / hDist) * strength * p_density pi
               + (h_vx hand - p_vx pi) * dragStrength)
      (p_fy pi + (hdy / hDist) * strength * p_density pi
               + (h_vy hand - p_vy pi) * dragStrength)
  else pi.

Definition force_body (hash : SpatialHash) (gx gy : T)
    (hands : list hand_force)
    (st : list particle) (i : nat) (pi : particle) : particle :=
  let neighbors := getNeighbors hash (p_x pi) (p_y pi) in
  let '(fpx, fpy, fvx, fvy) := pair_forces st neighbors i pi in
  (* Gravity *)
  let pi1 := set_force pi (fpx + fvx + gx * p_density pi)
                          (fpy + fvy + gy * p_density pi) in
  (* Hand interaction forces *)
  foldl hand_term pi1 hands.

Definition computeForces (s : SPHSimulation) : SPHSimulation :=
  let gx := if gravityEnabled s then fst (gravity s) else #0 in
  let gy := if gravityEnabled s then snd (gravity s) else #0 in
  set_particles s
    (for_each_particle
       (force_body (spatialHash s) gx gy (handForces s)) (particles s)).

(** The two boundary tests of one axis, in the order of the source;
    [pos] and [vel] are the coordinate and the velocity component after
    the Euler update, [size] is the width or the height. *)
Definition collide (size pos vel : T) : T * T :=
  let '(pos, vel) :=
    if pos <? PARTICLE_RADIUS then (PARTICLE_RADIUS, vel * DAMPING)
    else (pos, vel) in
  if pos >? size - PARTICLE_RADIUS then (size - PARTICLE_RADIUS, vel * DAMPING)
  else (pos, vel).

Definition integrate_particle (w h dt : T) (p : particle) : particle :=
  (* Semi-implicit Euler *)
  let vx := p_vx p + dt * p_fx p / (p_density p + EPS) in
  let vy := p_vy p + dt * p_fy p / (p_density p + EPS) in
  let x := p_x p + dt * vx in
  let y := p_y p + dt * vy in
  (* Boundary collisions *)
  let '(x, vx) := collide w x vx in
  let '(y, vy) := collide h y vy in
  Particle x y vx vy (p_fx p) (p_fy p) (p_density p) (p_pressure p).

Definition integrate (s : SPHSimulation) (dt : T) : SPHSimulation :=
  set_particles s
    (for_each_particle
       (λ _ _ p, integrate_particle (width s) (height s) dt p)
       (particles s)).

(** Rebuild spatial hash: clear, then insert every particle. *)
Definition rebuild (sh : SpatialHash) (ps : list particle) : SpatialHash :=
  foldl (λ sh i,
           match ps !! i with
           | Some p => insert sh i p
           | None => sh
           end) (clear sh) (seq 0 (length ps)).

(** The body of the loop of step. *)
Definition substep (s : SPHSimulation) : SPHSimulation :=
  let s := set_spatialHash s (rebuild (spatialHash s) (particles s)) in
  let s := computeDensityPressure s in
  let s := computeForces s in
  integrate s DT.

Definition step (s : SPHSimulation) : SPHSimulation :=
  Nat.iter SUBSTEPS substep s.

Definition getParticleCount (s : SPHSimulation) : nat := length (particles s).

Definition reset (s : SPHSimulation) : SPHSimulation := set_particles s [].

End Engine.

Arguments particle T : clear implicits.
Arguments hand_force T : clear implicits.
Arguments SpatialHash T : clear implicits.
Arguments SPHSimulation T : clear implicits.
Arguments pair_acc T : clear implicits.
(** * Properties *)

(** ** The loops over the store and the rebuilt hash, for any arithmetic *)

Section Passes.

Context {T : Type} {number : JsNumber T}.
Local Open Scope js_scope.

Implicit Types (ps st : list (particle T)) (sh : SpatialHash T).

Definition pass_step (body : list (particle T) → nat → particle T → particle T)
    (st : list (particle T)) (i : nat) : list (particle T) :=
  match st !! i with
  | Some p => <[i := body st i p]> st
  | None => st
  end.

Lemma for_each_particle_unfold body ps :
  for_each_particle body ps = foldl (pass_step body) ps (seq 0 (length ps)).
Proof. reflexivity. Qed.

(** A pass whose body keeps the projection [frozen] of the particle it
    writes, and reads the store through [frozen] only, gives every
    particle the body's result on the store as it was before the pass. *)
Lemma pass_prefix {A : Type} (frozen : particle T → A) body ps n :
  (∀ st i p, frozen (body st i p) = frozen p) →
  (∀ st st' i p, frozen <$> st = frozen <$> st' → body st i p = body st' i p) →
  n ≤ length ps →
  frozen <$> foldl (pass_step body) ps (seq 0 n) = frozen <$> ps ∧
  ∀ i, foldl (pass_step body) ps (seq 0 n) !! i
       = if decide (i < n) then body ps i <$> ps !! i else ps !! i.
Proof.
  intros Hkeep Hread. induction n as [|n IH]; intros Hn.
  - split; [done|]. intros i. case_decide; [lia|done].
  - rewrite seq_S, foldl_app. cbn [foldl Nat.add].
    destruct (IH ltac:(lia)) as [IHf IHl]. clear IH.
    set (st := foldl (pass_step body) ps (seq 0 n)) in *.
    assert (Hst : st !! n = ps !! n).
    { rewrite IHl. case_decide; [lia|done]. }
    destruct (lookup_lt_is_Some_2 ps n) as [p Hp]; [lia|].
    unfold pass_step. rewrite Hst, Hp. split.
    + rewrite list_fmap_insert, Hkeep, <- IHf.
      apply list_insert_id. rewrite list_lookup_fmap, Hst, Hp. done.
    + intros i. destruct (decide (i = n)) as [->|Hne].
      * rewrite list_lookup_insert_eq.
        2:{ apply lookup_lt_is_Some. rewrite Hst, Hp. eauto. }
        case_decide; [|lia]. rewrite Hp. simpl. f_equal.
        apply Hread. done.
      * rewrite list_lookup_insert_ne by done. rewrite IHl.
        repeat case_decide; try lia; done.
Qed.

Lemma for_each_particle_lookup {A : Type} (frozen : particle T → A) body ps i :
  (∀ st i p, frozen (body st i p) = frozen p) →
  (∀ st st' i p, frozen <$> st = frozen <$> st' → body st i p = body st' i p) →
  for_each_particle body ps !! i = body ps i <$> ps !! i.
Proof.
  intros Hkeep Hread.
  destruct (pass_prefix frozen body ps (length ps) Hkeep Hread) as [_ Hl]; [done|].
  rewrite for_each_particle_unfold, Hl. case_decide as Hi; [done|].
  rewrite lookup_ge_None_2 by lia. done.
Qed.

Lemma for_each_particle_length {A : Type} (frozen : particle T → A) body ps :
  (∀ st i p, frozen (body st i p) = frozen p) →
  (∀ st st' i p, frozen <$> st = frozen <$> st' → body st i p = body st' i p) →
  length (for_each_particle body ps) = length ps.
Proof.
  intros Hkeep Hread.
  destruct (pass_prefix frozen body ps (length ps) Hkeep Hread) as [Hf _]; [done|].
  rewrite for_each_particle_unfold.
  rewrite <- (length_fmap frozen), Hf, length_fmap. done.
Qed.

End Passes.

(** ** What each pass writes *)

Section PassResults.

Context {T : Type} {number : JsNumber T}.
Local Open Scope js_scope.

Implicit Types (ps st : list (particle T)) (sh : SpatialHash T).

Definition position (p : particle T) : T * T := (p_x p, p_y p).

(** Everything but fx and fy. *)
Definition kinematics (p : particle T) : T * T * T * T * T * T :=
  (p_x p, p_y p, p_vx p, p_vy p, p_density p, p_pressure p).

Lemma lookup_frozen {A : Type} (frozen : particle T → A) st st' j :
  frozen <$> st = frozen <$> st' →
  frozen <$> st !! j = frozen <$> st' !! j.
Proof. intros E. rewrite <- !list_lookup_fmap, E. done. Qed.

Lemma density_term_position pi pj pj' acc :
  position pj = position pj' →
  density_term pi pj acc = density_term pi pj' acc.
Proof. unfold position, density_term. intros [= -> ->]. done. Qed.

Lemma density_of_position st st' nb pi :
  position <$> st = position <$> st' →
  density_of st nb pi = density_of st' nb pi.
Proof.
  intros E. unfold density_of. generalize (#0 : T).
  induction nb as [|j nb IH]; intros acc; [done|]. cbn [foldl].
  pose proof (lookup_frozen position st st' j E) as Ej.
  destruct (st !! j) as [pj|], (st' !! j) as [pj'|];
    try discriminate Ej; [|apply IH].
  apply (inj Some) in Ej.
  rewrite (density_term_position pi pj pj' acc Ej). apply IH.
Qed.

Lemma computeDensityPressure_lookup (s : SPHSimulation T) i :
  particles (computeDensityPressure s) !! i
  = density_body (spatialHash s) (particles s) i <$> particles s !! i.
Proof.
  unfold computeDensityPressure. cbn [particles set_particles].
  apply (for_each_particle_lookup position).
  - done.
  - intros st st' j p E. unfold density_body.
    rewrite (density_of_position st st') by done. done.
Qed.

Lemma force_term_kinematics pi pj pj' acc :
  kinematics pj = kinematics pj' →
  force_term pi pj acc = force_term pi pj' acc.
Proof.
  unfold kinematics, force_term. intros [= -> -> -> -> -> ->]. done.
Qed.

Lemma pair_forces_kinematics st st' nb i pi :
  kinematics <$> st = kinematics <$> st' →
  pair_forces st nb i pi = pair_forces st' nb i pi.
Proof.
  intros E. unfold pair_forces. generalize (#0 : T, #0 : T, #0 : T, #0 : T).
  induction nb as [|j nb IH]; intros acc; [done|]. cbn [foldl].
  case_decide; [apply IH|].
  pose proof (lookup_frozen kinematics st st' j E) as Ej.
  destruct (st !! j) as [pj|], (st' !! j) as [pj'|];
    try discriminate Ej; [|apply IH].
  apply (inj Some) in Ej.
  rewrite (force_term_kinematics pi pj pj' acc Ej). apply IH.
Qed.

Lemma hand_term_kinematics p hand :
  kinematics (hand_term p hand) = kinematics p.
Proof. unfold hand_term. case_match; done. Qed.

Lemma hands_kinematics p hands :
  kinematics (foldl hand_term p hands) = kinematics p.
Proof.
  revert p. induction hands as [|hd hands IH]; intros p; [done|].
  cbn [foldl]. rewrite IH. apply hand_term_kinematics.
Qed.

Lemma computeForces_lookup (s : SPHSimulation T) i :
  particles (computeForces s) !! i
  = force_body (spatialHash s)
      (if gravityEnabled s then (gravity s).1 else #0)
      (if gravityEnabled s then (gravity s).2 else #0)
      (handForces s) (particles s) i <$> particles s !! i.
Proof.
  unfold computeForces. cbn [particles set_particles].
  apply (for_each_particle_lookup kinematics).
  - intros st j p. unfold force_body.
    destruct (pair_forces _ _ _ _) as [[[fpx fpy] fvx] fvy].
    rewrite hands_kinematics. done.
  - intros st st' j p E. unfold force_body.
    rewrite (pair_forces_kinematics st st') by done. done.
Qed.

Lemma integrate_lookup (s : SPHSimulation T) dt i :
  particles (integrate s dt) !! i
  = integrate_particle (width s) (height s) dt <$> particles s !! i.
Proof.
  unfold integrate. cbn [particles set_particles].
  apply (for_each_particle_lookup (λ _, ())
           (λ _ _ p, integrate_particle (width s) (height s) dt p)); done.
Qed.

Lemma integrate_particles (s : SPHSimulation T) dt :
  particles (integrate s dt)
  = integrate_particle (width s) (height s) dt <$> particles s.
Proof.
  apply list_eq. intros i. rewrite integrate_lookup, list_lookup_fmap. done.
Qed.

End PassResults.

(** ** The rebuilt spatial hash *)

Section Hash.

Context {T : Type} {number : JsNumber T}.
Local Open Scope js_scope.

Implicit Types (ps : list (particle T)) (sh : SpatialHash T).

(** The key under which [insert] files the particle of index [i]. *)
Definition keyAt sh ps (i : nat) : Z :=
  from_option (λ p, getKey sh (p_x p) (p_y p)) 0%Z (ps !! i).

Definition insert_step ps : SpatialHash T → nat → SpatialHash T :=
  λ sh i, match ps !! i with
          | Some p => insert sh i p
          | None => sh
          end.

Lemma rebuild_prefix sh ps n :
  n ≤ length ps →
  cellSize (foldl (insert_step ps) (clear sh) (seq 0 n)) = cellSize sh ∧
  ∀ k, default [] (grid (foldl (insert_step ps) (clear sh) (seq 0 n)) !! k)
       = filter (λ i, keyAt sh ps i = k) (seq 0 n).
Proof.
  induction n as [|n IH]; intros Hn.
  - split; [done|]. intros k. cbn. rewrite lookup_empty. done.
  - rewrite seq_S, foldl_app. cbn [foldl Nat.add].
    destruct (IH ltac:(lia)) as [IHc IHg]. clear IH.
    set (sh' := foldl (insert_step ps) (clear sh) (seq 0 n)) in *.
    destruct (lookup_lt_is_Some_2 ps n) as [p Hp]; [lia|].
    replace (insert_step ps sh' n) with (insert sh' n p)
      by (unfold insert_step; rewrite Hp; done).
    unfold insert. cbn [cellSize grid].
    split; [done|]. intros k.
    assert (Hkey : getKey sh' (p_x p) (p_y p) = keyAt sh ps n).
    { unfold keyAt. rewrite Hp. cbn. unfold getKey. rewrite IHc. done. }
    rewrite Hkey, filter_app.
    destruct (decide (keyAt sh ps n = k)) as [Heq|Hne].
    + rewrite Heq, lookup_insert_eq. cbn [default]. rewrite IHg.
      rewrite (filter_cons_True _ n) by done. rewrite filter_nil. done.
    + rewrite lookup_insert_ne by done.
      rewrite IHg, (filter_cons_False _ n) by done.
      rewrite filter_nil, app_nil_r. done.
Qed.

Lemma rebuild_cellSize sh ps : cellSize (rebuild sh ps) = cellSize sh.
Proof. apply (rebuild_prefix sh ps (length ps)). done. Qed.

(** The bucket of key [k] lists, in increasing order, the particles
    that [insert] filed under [k]. *)
Lemma rebuild_bucket sh ps k :
  default [] (grid (rebuild sh ps) !! k)
  = filter (λ i, keyAt sh ps i = k) (seq 0 (length ps)).
Proof. apply (rebuild_prefix sh ps (length ps)). done. Qed.

(** The list getNeighbors returns on the rebuilt hash. *)
Lemma getNeighbors_rebuild sh ps x y :
  getNeighbors (rebuild sh ps) x y
  = flat_map (λ dx : Z,
      flat_map (λ dy : Z,
        filter (λ i, keyAt sh ps i
                     = cellKey (num_floor (x / cellSize sh) + #dx)
                               (num_floor (y / cellSize sh) + #dy))
               (seq 0 (length ps))) offsets) offsets.
Proof.
  unfold getNeighbors. rewrite rebuild_cellSize.
  apply flat_map_ext. intros dx.
  apply flat_map_ext. intros dy. apply rebuild_bucket.
Qed.

Lemma elem_of_getNeighbors_rebuild sh ps x y i :
  i ∈ getNeighbors (rebuild sh ps) x y ↔
  i < length ps ∧
  ∃ dx dy, dx ∈ offsets ∧ dy ∈ offsets ∧
    keyAt sh ps i = cellKey (num_floor (x / cellSize sh) + #dx)
                            (num_floor (y / cellSize sh) + #dy).
Proof.
  rewrite getNeighbors_rebuild, list_elem_of_In, in_flat_map. split.
  - intros (dx & Hdx & Hin). apply in_flat_map in Hin as (dy & Hdy & Hin).
    apply list_elem_of_In, list_elem_of_filter in Hin as [Hk Hi].
    apply elem_of_seq in Hi. split; [lia|].
    exists dx, dy. rewrite <- !list_elem_of_In in *. done.
  - intros (Hi & dx & dy & Hdx & Hdy & Hk).
    exists dx. split; [by apply list_elem_of_In|].
    apply in_flat_map. exists dy. split; [by apply list_elem_of_In|].
    apply list_elem_of_In, list_elem_of_filter. split; [done|].
    apply elem_of_seq. lia.
Qed.

End Hash.

(** ** Comparisons of doubles *)

Module FloatOrder.

Lemma compare_cont_swap p q :
  Pos.compare_cont Eq q p = CompOpp (Pos.compare_cont Eq p q).
Proof. exact (Pos.compare_antisym p q). Qed.

Lemma SFcompare_antisym a b :
  SFcompare b a = option_map CompOpp (SFcompare a b).
Proof.
  destruct a as [sa|sa| |sa ma ea], b as [sb|sb| |sb mb eb];
    try destruct sa; try destruct sb; try reflexivity; cbn;
    rewrite (Z.compare_antisym ea eb); destruct (ea ?= eb)%Z; cbn;
    try reflexivity;
    rewrite (compare_cont_swap ma mb);
    destruct (Pos.compare_cont Eq ma mb); reflexivity.
Qed.

Lemma SFcompare_refl a : a ≠ S754_nan → SFcompare a a = Some Eq.
Proof.
  destruct a as [sa|sa| |sa ma ea]; try destruct sa; try done; intros _; cbn;
    rewrite Z.compare_refl; fold (Pos.compare ma ma);
    rewrite Pos.compare_refl; done.
Qed.

Lemma SFcompare_None a b :
  SFcompare a b = None ↔ a = S754_nan ∨ b = S754_nan.
Proof.
  destruct a as [sa|sa| |sa ma ea], b as [sb|sb| |sb mb eb]; cbn;
    try destruct sa; try destruct sb;
    (split; [try done; auto | intros [?|?]; done]).
Qed.

(** The order of the finite and infinite values, as a lexicographic
    order on integers. *)
Definition rank (a : spec_float) : Z * Z * Z :=
  match a with
  | S754_infinity true => (-2, 0, 0)
  | S754_finite true m e => (-1, - e, - Z.pos m)
  | S754_zero _ | S754_nan => (0, 0, 0)
  | S754_finite false m e => (1, e, Z.pos m)
  | S754_infinity false => (2, 0, 0)
  end%Z.

Definition lex3 (u v : Z * Z * Z) : comparison :=
  let '(a1, a2, a3) := u in
  let '(b1, b2, b3) := v in
  match (a1 ?= b1)%Z with
  | Eq => match (a2 ?= b2)%Z with Eq => (a3 ?= b3)%Z | c => c end
  | c => c
  end.

Lemma SFcompare_rank a b :
  a ≠ S754_nan → b ≠ S754_nan →
  SFcompare a b = Some (lex3 (rank a) (rank b)).
Proof.
  intros Ha Hb.
  destruct a as [sa|sa| |sa ma ea], b as [sb|sb| |sb mb eb];
    try done; try destruct sa; try destruct sb; try reflexivity; cbn;
    f_equal.
  rewrite !Z.compare_opp, (Z.compare_antisym ea eb).
  change (Z.pos mb ?= Z.pos ma)%Z with (Pos.compare_cont Eq mb ma).
  rewrite (compare_cont_swap ma mb).
  destruct (ea ?= eb)%Z; reflexivity.
Qed.


Local Open Scope float_scope.

Lemma is_nan_spec x : is_nan x = false ↔ Prim2SF x ≠ S754_nan.
Proof.
  unfold is_nan. rewrite FloatAxioms.eqb_spec. unfold SFeqb. split.
  - intros E N. rewrite N in E. done.
  - intros N. rewrite SFcompare_refl by done. done.
Qed.

Lemma leb_not_nan x y :
  (x <=? y) = true → is_nan x = false ∧ is_nan y = false.
Proof.
  rewrite FloatAxioms.leb_spec, !is_nan_spec. unfold SFleb. intros E.
  split; intros N; rewrite N in E; [done|].
  destruct (Prim2SF x); done.
Qed.

Lemma leb_refl x : is_nan x = false → (x <=? x) = true.
Proof.
  rewrite FloatAxioms.leb_spec, is_nan_spec. unfold SFleb. intros N.
  rewrite SFcompare_refl by done. done.
Qed.

Lemma leb_true_ltb x y : (x <=? y) = true → (y <? x) = false.
Proof.
  rewrite FloatAxioms.leb_spec, FloatAxioms.ltb_spec. unfold SFleb, SFltb.
  rewrite (SFcompare_antisym (Prim2SF x) (Prim2SF y)).
  destruct (SFcompare (Prim2SF x) (Prim2SF y)) as [[]|]; done.
Qed.

Lemma ltb_false_leb x y :
  is_nan x = false → is_nan y = false → (x <? y) = false → (y <=? x) = true.
Proof.
  rewrite FloatAxioms.leb_spec, FloatAxioms.ltb_spec, !is_nan_spec. unfold SFleb, SFltb.
  intros Nx Ny. rewrite (SFcompare_antisym (Prim2SF x) (Prim2SF y)).
  destruct (SFcompare (Prim2SF x) (Prim2SF y)) as [[]|] eqn:E; try done.
  apply SFcompare_None in E. tauto.
Qed.



Lemma lex3_trans_le_le u v w :
  lex3 u v ≠ Gt → lex3 v w ≠ Gt → lex3 u w ≠ Gt.
Proof.
  destruct u as [[a1 a2] a3], v as [[b1 b2] b3], w as [[c1 c2] c3].
  unfold lex3.
  destruct (Z.compare_spec a1 b1), (Z.compare_spec b1 c1),
    (Z.compare_spec a1 c1); try lia; try done;
  destruct (Z.compare_spec a2 b2), (Z.compare_spec b2 c2),
    (Z.compare_spec a2 c2); try lia; try done;
  destruct (Z.compare_spec a3 b3), (Z.compare_spec b3 c3),
    (Z.compare_spec a3 c3); try lia; try done.
Qed.

Lemma leb_trans x y z :
  (x <=? y) = true → (y <=? z) = true → (x <=? z) = true.
Proof.
  intros Hxy Hyz.
  destruct (leb_not_nan _ _ Hxy) as [Nx Ny].
  destruct (leb_not_nan _ _ Hyz) as [_ Nz].
  revert Hxy Hyz Nx Ny Nz.
  rewrite !FloatAxioms.leb_spec, !is_nan_spec. unfold SFleb.
  intros Hxy Hyz Nx Ny Nz.
  rewrite !SFcompare_rank in * by done.
  pose proof (lex3_trans_le_le (rank (Prim2SF x)) (rank (Prim2SF y))
                (rank (Prim2SF z))) as Ht.
  destruct (lex3 (rank (Prim2SF x)) (rank (Prim2SF y))); try done;
    destruct (lex3 (rank (Prim2SF y)) (rank (Prim2SF z))); try done;
    destruct (lex3 (rank (Prim2SF x)) (rank (Prim2SF z))); try done;
    destruct Ht; done.
Qed.


Lemma ltb_irrefl x : (x <? x) = false.
Proof.
  rewrite FloatAxioms.ltb_spec. unfold SFltb.
  destruct (Prim2SF x) as [s|s| |s m e] eqn:E; try destruct s; try done;
    rewrite SFcompare_refl; done.
Qed.

End FloatOrder.

(** Rewrites the operations of [float_number] into the primitive ones. *)
Ltac float_ops :=
  change (@num_ltb float float_number) with PrimFloat.ltb in *;
  change (@num_add float float_number) with PrimFloat.add in *;
  change (@num_sub float float_number) with PrimFloat.sub in *;
  change (@num_mul float float_number) with PrimFloat.mul in *;
  change (@num_div float float_number) with PrimFloat.div in *;
  change (@num_sqrt float float_number) with PrimFloat.sqrt in *.


(** ** Integration and the boundary, on doubles *)

Section Boundary.

Local Open Scope js_scope.
Import FloatOrder.
#[local] Existing Instance float_number.

(** The coordinate [pos] lies in [lo, hi]. *)
Definition between (lo hi pos : float) : Prop :=
  PrimFloat.leb lo pos = true ∧ PrimFloat.leb pos hi = true.

(** The boundary invariant of one particle in a [w] by [h] domain. *)
Definition within_domain (w h : float) (p : particle float) : Prop :=
  between PARTICLE_RADIUS (w - PARTICLE_RADIUS) (p_x p) ∧
  between PARTICLE_RADIUS (h - PARTICLE_RADIUS) (p_y p).


(** The velocity and the position of the semi-implicit Euler update. *)
Definition euler_velocity (dt v f rho : float) : float :=
  v + dt * f / (rho + EPS).

Definition euler_position (dt x v : float) : float := x + dt * v.


Lemma collide_between size pos vel :
  PrimFloat.leb PARTICLE_RADIUS (size - PARTICLE_RADIUS) = true →
  PrimFloat.is_nan (collide size pos vel).1 = false →
  between PARTICLE_RADIUS (size - PARTICLE_RADIUS) (collide size pos vel).1.
Proof.
  intros Hsize. unfold between, collide. float_ops.
  destruct (leb_not_nan _ _ Hsize) as [Hr Hm].
  destruct (PrimFloat.ltb pos PARTICLE_RADIUS) eqn:Hlo.
  - rewrite (leb_true_ltb _ _ Hsize). cbn [fst snd]. intros _.
    split; [by apply leb_refl|done].
  - destruct (PrimFloat.ltb (size - PARTICLE_RADIUS) pos) eqn:Hhi; cbn [fst snd].
    + intros _. split; [done|by apply leb_refl].
    + intros Hn. split; by apply ltb_false_leb.
Qed.

Lemma integrate_particle_x w h dt p :
  p_x (integrate_particle w h dt p)
  = (collide w (euler_position dt (p_x p)
                  (euler_velocity dt (p_vx p) (p_fx p) (p_density p)))
               (euler_velocity dt (p_vx p) (p_fx p) (p_density p))).1
  ∧ p_vx (integrate_particle w h dt p)
  = (collide w (euler_position dt (p_x p)
                  (euler_velocity dt (p_vx p) (p_fx p) (p_density p)))
               (euler_velocity dt (p_vx p) (p_fx p) (p_density p))).2.
Proof.
  unfold integrate_particle, euler_position, euler_velocity.
  do 2 destruct (collide _ _ _). done.
Qed.

Lemma integrate_particle_y w h dt p :
  p_y (integrate_particle w h dt p)
  = (collide h (euler_position dt (p_y p)
                  (euler_velocity dt (p_vy p) (p_fy p) (p_density p)))
               (euler_velocity dt (p_vy p) (p_fy p) (p_density p))).1
  ∧ p_vy (integrate_particle w h dt p)
  = (collide h (euler_position dt (p_y p)
                  (euler_velocity dt (p_vy p) (p_fy p) (p_density p)))
               (euler_velocity dt (p_vy p) (p_fy p) (p_density p))).2.
Proof.
  unfold integrate_particle, euler_position, euler_velocity.
  do 2 destruct (collide _ _ _). done.
Qed.

(** A domain 10 wide, narrower than two particle radii, with one particle
    at rest inside it. *)
Definition narrow_domain : SPHSimulation float :=
  (MkSim 10 600 [createParticle 5 100 0 0] (0, 400) true
     (new_SpatialHash H) [])%float.

(** C2, refuted as stated: in the domain 10 wide the integration pass
    moves the particle at x = 5 to x = 10 - 6 = 4, below the margin 6, so
    its position is outside [6, 4] x [6, 594]. *)
Lemma narrow_domain_leaves_box :
  ∃ p', particles (integrate narrow_domain DT) !! 0%nat = Some p' ∧
        p_x p' = 4%float ∧
        ¬ within_domain (width narrow_domain) (height narrow_domain) p'.
Proof.
  eexists. split; [vm_compute; reflexivity|]. split; [reflexivity|].
  intros [[Hlo _] _]. vm_compute in Hlo. discriminate Hlo.
Qed.

(** A NaN velocity gives a NaN coordinate, which no boundary test moves. *)
Example nan_velocity_leaves_box :
  let s := (MkSim 800 600 [createParticle 100 100 nan 0] (0, 400)
              true (new_SpatialHash H) [])%float in
  ∃ p', particles (integrate s DT) !! 0%nat = Some p' ∧
        PrimFloat.is_nan (p_x p') = true ∧ ¬ within_domain 800 600 p'.
Proof.
  eexists. split; [vm_compute; reflexivity|]. split; [reflexivity|].
  intros [[Hlo _] _]. vm_compute in Hlo. discriminate Hlo.
Qed.

(** C2, amended: after any integration pass, in a domain at least two
    particle radii wide and high (PARTICLE_RADIUS <= width - PARTICLE_RADIUS
    and likewise for the height), every coordinate of every particle that
    is a number (not NaN) lies between PARTICLE_RADIUS and the size of the
    domain minus PARTICLE_RADIUS, whatever the positions, velocities, forces
    and densities before the pass and whatever the time step. *)
Theorem integrate_keeps_numbers_in_domain
    (s : SPHSimulation float) (dt : float) (i : nat) (p' : particle float) :
  PrimFloat.leb PARTICLE_RADIUS (width s - PARTICLE_RADIUS) = true →
  PrimFloat.leb PARTICLE_RADIUS (height s - PARTICLE_RADIUS) = true →
  particles (integrate s dt) !! i = Some p' →
  (PrimFloat.is_nan (p_x p') = false →
     between PARTICLE_RADIUS (width s - PARTICLE_RADIUS) (p_x p')) ∧
  (PrimFloat.is_nan (p_y p') = false →
     between PARTICLE_RADIUS (height s - PARTICLE_RADIUS) (p_y p')).
Proof.
  intros Hw Hh. rewrite integrate_lookup. intros Hp'.
  destruct (particles s !! i) as [p|]; [|discriminate Hp'].
  injection Hp' as <-.
  destruct (integrate_particle_x (width s) (height s) dt p) as [-> _].
  destruct (integrate_particle_y (width s) (height s) dt p) as [-> _].
  split; apply collide_between; done.
Qed.

(** A domain of 800 by 600 with a particle that the Euler update carries
    past the left and the bottom boundary. *)
Definition wide_domain : SPHSimulation float :=
  (MkSim 800 600 [Particle 7 590 (-2000) 20000 0 0 1 0] (0, 400)
     true (new_SpatialHash H) [])%float.

Lemma integrate_keeps_numbers_in_domain_witness :
  between 6 794 6 ∧ between 6 594 594.
Proof.
  destruct (integrate_keeps_numbers_in_domain wide_domain DT 0
              (Particle 6 594 1000 (-10000) 0 0 1 0)%float) as [Hx Hy];
    [vm_compute; reflexivity..|].
  split; [apply Hx|apply Hy]; reflexivity.
Defined.





End Boundary.

(** ** A particle among its own neighbors *)

Section OwnCell.

Context {T : Type} {number : JsNumber T}.
Local Open Scope js_scope.

Implicit Types (ps : list (particle T)) (sh : SpatialHash T).

(** Adding the offset 0 to the coordinates of a cell keeps its key. Both
    arithmetics have this property ([float_cellKey_zero],
    [real_cellKey_zero]). *)
Definition offset_zero_neutral : Prop :=
  ∀ cx cy : T, cellKey (cx + #0) (cy + #0) = cellKey cx cy.

(** No cell next to the cell of ([x], [y]) has the key of that cell. *)
Definition own_key_unshared sh (x y : T) : Prop :=
  ∀ dx dy : Z, dx ∈ offsets → dy ∈ offsets → (dx, dy) ≠ (0, 0)%Z →
    cellKey (num_floor (x / cellSize sh) + #dx)
            (num_floor (y / cellSize sh) + #dy)
    ≠ getKey sh x y.

Lemma keyAt_lookup sh ps i p :
  ps !! i = Some p → keyAt sh ps i = getKey sh (p_x p) (p_y p).
Proof. unfold keyAt. intros ->. done. Qed.


Lemma filter_eq_bucket (P : nat → Prop) `{!∀ j, Decision (P j)} i n :
  filter (λ j, j = i) (filter P (seq 0 n))
  = if decide (i < n ∧ P i) then [i] else [].
Proof.
  induction n as [|n IH].
  - cbn. case_decide as Hd; [lia|done].
  - rewrite seq_S, !filter_app, IH. cbn [Nat.add]. clear IH.
    assert (Hlast : filter (λ j, j = i) (filter P [n])
                    = if decide (n = i ∧ P n) then [i] else []).
    { destruct (decide (P n)) as [Hn|Hn].
      - rewrite (filter_cons_True P n) by done. rewrite filter_nil.
        destruct (decide (n = i)) as [->|Hne].
        + rewrite (filter_cons_True _ i) by done. rewrite filter_nil.
          rewrite decide_True by done. done.
        + rewrite (filter_cons_False _ n) by done. rewrite filter_nil.
          rewrite decide_False by tauto. done.
      - rewrite (filter_cons_False P n) by done. rewrite !filter_nil.
        rewrite decide_False by tauto. done. }
    rewrite Hlast.
    destruct (decide (i < n ∧ P i)) as [[Hi HP]|Hn1].
    + rewrite decide_False by lia. rewrite decide_True by (split; [lia|done]).
      done.
    + destruct (decide (n = i ∧ P n)) as [[-> HP]|Hn2].
      * rewrite decide_True by (split; [lia|done]). done.
      * rewrite decide_False; [done|]. intros [Hi HP].
        destruct (decide (i = n)) as [->|Hne]; [tauto|].
        apply Hn1. split; [lia|done].
Qed.

(** When no adjacent cell shares the key of its cell, a particle occurs
    exactly once in the list of its neighbors. *)
Lemma self_once_in_neighbors sh ps i p :
  offset_zero_neutral →
  ps !! i = Some p →
  own_key_unshared sh (p_x p) (p_y p) →
  filter (λ j, j = i) (getNeighbors (rebuild sh ps) (p_x p) (p_y p)) = [i].
Proof.
  intros Hz Hp Hown. rewrite getNeighbors_rebuild.
  pose proof (lookup_lt_Some _ _ _ Hp) as Hi.
  assert (Hother : ∀ dx dy : Z, dx ∈ offsets → dy ∈ offsets → (dx, dy) ≠ (0, 0)%Z →
    filter (λ j, j = i)
      (filter (λ j, keyAt sh ps j
                    = cellKey (num_floor (p_x p / cellSize sh) + #dx)
                              (num_floor (p_y p / cellSize sh) + #dy))
              (seq 0 (length ps))) = []).
  { intros dx dy Hdx Hdy Hne. rewrite filter_eq_bucket.
    case_decide as Hd; [|done]. destruct Hd as [_ Hd].
    rewrite (keyAt_lookup sh ps i p Hp) in Hd.
    destruct (Hown dx dy Hdx Hdy Hne). done. }
  assert (Hself :
    filter (λ j, j = i)
      (filter (λ j, keyAt sh ps j
                    = cellKey (num_floor (p_x p / cellSize sh) + #0)
                              (num_floor (p_y p / cellSize sh) + #0))
              (seq 0 (length ps))) = [i]).
  { rewrite filter_eq_bucket. case_decide as Hd; [done|]. destruct Hd.
    split; [done|]. rewrite Hz. by apply keyAt_lookup. }
  unfold offsets. cbn [flat_map]. rewrite !app_nil_r, !filter_app.
  rewrite Hself.
  rewrite !Hother; unfold offsets; try set_solver; done.
Qed.

Lemma foldl_skip {A : Type} (g : A → nat → A) (l : list nat) a :
  (∀ j acc, j ∈ l → g acc j = acc) →
  foldl g a l = a.
Proof.
  induction l as [|j l IH]; intros Hskip; [done|]. cbn [foldl].
  rewrite Hskip by set_solver. apply IH. intros k acc Hk.
  apply Hskip. set_solver.
Qed.

(** A loop that only the iteration of [i] changes, over a list where [i]
    occurs once, is that one iteration. *)
Lemma foldl_single {A : Type} (g : A → nat → A) (l : list nat) i a :
  filter (λ j, j = i) l = [i] →
  (∀ j acc, j ∈ l → j ≠ i → g acc j = acc) →
  foldl g a l = g a i.
Proof.
  revert a. induction l as [|j l IH]; intros a Hf Hskip; [done|].
  cbn [foldl]. destruct (decide (j = i)) as [->|Hne].
  - rewrite filter_cons_True in Hf by done. injection Hf as Hf.
    apply foldl_skip. intros k acc Hk. apply Hskip; [set_solver|].
    intros ->. assert (Hin : i ∈ filter (λ j, j = i) l).
    { apply list_elem_of_filter. done. }
    rewrite Hf in Hin. set_solver.
  - rewrite filter_cons_False in Hf by done.
    rewrite Hskip by set_solver. apply IH; [done|].
    intros k acc Hk. apply Hskip. set_solver.
Qed.

End OwnCell.

(** ** The density of an isolated particle, on doubles *)

Section Isolated.

Local Open Scope js_scope.
Import FloatOrder.
#[local] Existing Instance float_number.

Lemma float_add_zero (x : float) :
  Prim2SF x ≠ S754_zero true → PrimFloat.add x 0 = x.
Proof.
  intros Hx. apply Prim2SF_inj. rewrite add_spec.
  change (Prim2SF 0) with (S754_zero false).
  destruct (Prim2SF x) as [[]|[]| |]; done.
Qed.

Lemma float_toInt32_mul_zero (c k : float) :
  Float64.toInt32 (PrimFloat.mul (PrimFloat.add c 0) k)
  = Float64.toInt32 (PrimFloat.mul c k).
Proof.
  destruct (Prim2SF c) as [[]|?| |? ? ?] eqn:Hc;
    try (rewrite float_add_zero by (rewrite Hc; done); done).
  assert (c = (-0)%float) as -> by (apply Prim2SF_inj; rewrite Hc; done).
  change (PrimFloat.add (-0) 0) with 0%float.
  unfold Float64.toInt32, Float64.trunc. rewrite !mul_spec.
  change (Prim2SF 0) with (S754_zero false).
  change (Prim2SF (-0)) with (S754_zero true).
  destruct (Prim2SF k) as [[]|[]| |[] ? ?]; done.
Qed.

Lemma float_cellKey_zero : offset_zero_neutral (T:=float).
Proof.
  intros cx cy. unfold cellKey. float_ops.
  change (@num_toInt32 float float_number) with Float64.toInt32.
  change (#0 : float) with 0%float.
  rewrite !float_toInt32_mul_zero. done.
Qed.

Lemma is_finite_spec (x : float) :
  PrimFloat.is_finite x = true →
  (∃ s, Prim2SF x = S754_zero s) ∨ (∃ s m e, Prim2SF x = S754_finite s m e).
Proof.
  unfold PrimFloat.is_finite, PrimFloat.is_infinity, PrimFloat.is_nan.
  rewrite !FloatAxioms.eqb_spec, abs_spec.
  change (Prim2SF infinity) with (S754_infinity false).
  destruct (Prim2SF x) as [s|s| |s m e]; cbn; try done; eauto.
  destruct s; done.
Qed.

Lemma float_sub_self (x : float) :
  PrimFloat.is_finite x = true → PrimFloat.sub x x = 0%float.
Proof.
  intros Hx. apply Prim2SF_inj. rewrite sub_spec.
  change (Prim2SF 0) with (S754_zero false).
  destruct (is_finite_spec x Hx) as [[s ->]|(s & m & e & ->)].
  - destruct s; done.
  - unfold SF64sub, SFsub. rewrite Z.sub_diag. done.
Qed.

(** The term a particle at a finite position adds to its own density. *)
Lemma density_term_self (pi : particle float) :
  PrimFloat.is_finite (p_x pi) = true →
  PrimFloat.is_finite (p_y pi) = true →
  density_term pi pi #0 = PARTICLE_MASS * POLY6_COEFF * H2 * H2 * H2.
Proof.
  intros Hx Hy. unfold density_term. float_ops.
  rewrite !float_sub_self by done. vm_compute. reflexivity.
Qed.

(** The state at the start of the density pass of a substep: the hash
    rebuilt from the particles. *)
Definition with_rebuilt_hash {T : Type} {number : JsNumber T}
    (s : SPHSimulation T) : SPHSimulation T :=
  set_spatialHash s (rebuild (spatialHash s) (particles s)).

(** One particle, alone, in the cell (32399, 124734), whose key
    -759670159 is also the key of the adjacent cell (32400, 124735). *)
Definition lone_particle : SPHSimulation float :=
  (MkSim 8000000 6000000 [createParticle 1133970 4365700 0 0] (0, 400) true
     (new_SpatialHash H) [])%float.

(** C4, refuted as stated: the particle of [lone_particle] has no other
    particle near it, and getNeighbors returns it twice, once for its own
    cell and once for the adjacent cell with the same key; its density
    after the pass is twice the self-term. *)
Lemma lone_particle_counted_twice :
  cellKey 32399%float 124734%float = cellKey 32400%float 124735%float ∧
  getNeighbors (spatialHash (with_rebuilt_hash lone_particle))
    1133970%float 4365700%float = [0; 0]%nat ∧
  ∃ p', particles (computeDensityPressure (with_rebuilt_hash lone_particle))
          !! 0%nat = Some p' ∧
        p_density p' = (PARTICLE_MASS * POLY6_COEFF * H2 * H2 * H2)
                       + (PARTICLE_MASS * POLY6_COEFF * H2 * H2 * H2) ∧
        p_density p' ≠ PARTICLE_MASS * POLY6_COEFF * H2 * H2 * H2.
Proof.
  split; [vm_compute; reflexivity|]. split; [vm_compute; reflexivity|].
  eexists. split; [vm_compute; reflexivity|]. split; [vm_compute; reflexivity|].
  intros E. vm_compute in E.
  apply (f_equal Prim2SF) in E. vm_compute in E. discriminate E.
Qed.

(** C4, amended: for a particle at a finite position, with no other
    particle within the kernel radius (no other particle passes the test
    r2 < H2 of the pass) and whose cell shares its key with none of the
    eight adjacent cells, after the density and pressure pass on the
    rebuilt hash the density is exactly the self-term
    PARTICLE_MASS * POLY6_COEFF * H2 * H2 * H2 and the pressure is
    GAS_CONSTANT * (density - REST_DENSITY). *)
Theorem isolated_particle_density
    (s : SPHSimulation float) (i : nat) (pi : particle float) :
  particles s !! i = Some pi →
  PrimFloat.is_finite (p_x pi) = true →
  PrimFloat.is_finite (p_y pi) = true →
  (∀ j pj, j ≠ i → particles s !! j = Some pj →
           (pair_r2 pi pj <? H2) = false) →
  own_key_unshared (spatialHash s) (p_x pi) (p_y pi) →
  ∃ pi', particles (computeDensityPressure (with_rebuilt_hash s)) !! i
         = Some pi' ∧
    p_density pi' = PARTICLE_MASS * POLY6_COEFF * H2 * H2 * H2 ∧
    p_pressure pi' = GAS_CONSTANT * (p_density pi' - REST_DENSITY).
Proof.
  intros Hpi Hx Hy Hfar Hown.
  rewrite computeDensityPressure_lookup.
  unfold with_rebuilt_hash. cbn [particles spatialHash set_spatialHash].
  rewrite Hpi. eexists. split; [reflexivity|].
  unfold density_body. cbn [p_density p_pressure]. split; [|done].
  unfold density_of.
  rewrite (foldl_single _ _ i).
  - rewrite Hpi. by apply density_term_self.
  - by apply self_once_in_neighbors; [apply float_cellKey_zero|..].
  - intros j acc _ Hne. destruct (particles s !! j) as [pj|] eqn:Hpj; [|done].
    unfold density_term. fold (pair_r2 pi pj).
    rewrite (Hfar j pj Hne Hpj). done.
Qed.

(** A particle at a NaN position is not within the radius of itself:
    its r2 is NaN and its density stays 0. *)
Example nan_particle_has_no_density :
  let s := (MkSim 800 600 [createParticle nan 100 0 0] (0, 400) true
              (new_SpatialHash H) [])%float in
  ∃ p', particles (computeDensityPressure (with_rebuilt_hash s)) !! 0%nat
        = Some p' ∧ p_density p' = 0%float.
Proof. eexists. split; vm_compute; reflexivity. Qed.

(** The two halves of a key: ToInt32 of the products, for a cell
    coordinate [a] plus an offset. *)
Definition x_half (a dx : Z) : Z :=
  num_toInt32 (T:=float) ((#a + #dx) * #73856093).

Definition y_half (b dy : Z) : Z :=
  num_toInt32 (T:=float) ((#b + #dy) * #19349663).

(** The halves for the offsets -1, 0, 1, and the half of [getKey]. *)
Definition x_halves (a : Z) : Z * Z * Z * Z :=
  (x_half a (-1), x_half a 0, x_half a 1,
   num_toInt32 (T:=float) (#a * #73856093)).

Definition y_halves (b : Z) : Z * Z * Z * Z :=
  (y_half b (-1), y_half b 0, y_half b 1,
   num_toInt32 (T:=float) (#b * #19349663)).

(** None of the eight keys around a cell is the key of the cell. *)
Definition halves_unshared (xs ys : Z * Z * Z * Z) : bool :=
  let '(xm, xz, xp, x0) := xs in
  let '(ym, yz, yp, y0) := ys in
  let other u v := negb (int32_xor u v =? int32_xor x0 y0)%Z in
  other xm ym && other xm yz && other xm yp
  && other xz ym && other xz yp
  && other xp ym && other xp yz && other xp yp.

(** No cell with coordinates in [0, 256), the cells of a domain up to 8960
    wide and high, shares its key with an adjacent cell. *)
Lemma small_cells_unshared :
  let ys := map y_halves (seqZ 0 256) in
  forallb (λ xs, forallb (halves_unshared xs) ys) (map x_halves (seqZ 0 256))
  = true.
Proof. vm_compute. reflexivity. Qed.

Lemma own_key_unshared_small (sh : SpatialHash float) (x y : float) (a b : Z) :
  (0 <= a < 256)%Z → (0 <= b < 256)%Z →
  num_floor (x / cellSize sh) = #a →
  num_floor (y / cellSize sh) = #b →
  own_key_unshared sh x y.
Proof.
  intros Ha Hb Ex Ey dx dy Hdx Hdy Hne. unfold getKey. rewrite Ex, Ey.
  pose proof small_cells_unshared as Hall. cbv zeta in Hall.
  rewrite forallb_forall in Hall.
  specialize (Hall (x_halves a)). rewrite forallb_forall in Hall.
  specialize (Hall
    ltac:(apply in_map, list_elem_of_In, elem_of_seqZ; lia) (y_halves b)
    ltac:(apply in_map, list_elem_of_In, elem_of_seqZ; lia)).
  unfold halves_unshared, x_halves, y_halves in Hall.
  repeat (apply andb_prop in Hall as [Hall ?]).
  unfold cellKey. fold (x_half a dx). fold (y_half b dy).
  unfold offsets in Hdx, Hdy.
  repeat (apply elem_of_cons in Hdx as [->|Hdx]);
    repeat (apply elem_of_cons in Hdy as [->|Hdy]);
    try (by apply elem_of_nil in Hdx); try (by apply elem_of_nil in Hdy);
    try done;
    intros E; rewrite E, Z.eqb_refl in *; discriminate.
Qed.

(** Two particles 200 apart, in a domain of 800 by 600. *)
Definition far_apart : SPHSimulation float :=
  (MkSim 800 600 [createParticle 100 100 0 0; createParticle 300 100 0 0]
     (0, 400) true (new_SpatialHash H) [])%float.

Lemma isolated_particle_density_witness :
  ∃ pi', particles (computeDensityPressure (with_rebuilt_hash far_apart))
           !! 0%nat = Some pi' ∧
    p_density pi' = PARTICLE_MASS * POLY6_COEFF * H2 * H2 * H2 ∧
    p_pressure pi' = GAS_CONSTANT * (p_density pi' - REST_DENSITY).
Proof.
  apply (isolated_particle_density far_apart 0
           (createParticle 100 100 0 0)%float).
  - reflexivity.
  - reflexivity.
  - reflexivity.
  - intros [|[|j]] pj Hne Hpj; [done| |done].
    injection Hpj as <-. vm_compute. reflexivity.
  - apply (own_key_unshared_small _ _ _ 2 2);
      [lia | lia | vm_compute; reflexivity..].
Defined.

End Isolated.

(** ** Determinism of step *)

Section Determinism.

Context {T : Type} {number : JsNumber T}.

(** step reads the spatial hash it finds only through its cell size:
    every substep clears the grid before it rebuilds it. *)
Lemma rebuild_stale_grid (sh1 sh2 : SpatialHash T) (ps : list (particle T)) :
  cellSize sh1 = cellSize sh2 → rebuild sh1 ps = rebuild sh2 ps.
Proof.
  intros Hc. unfold rebuild, clear. rewrite Hc. done.
Qed.

Lemma substep_deterministic (s1 s2 : SPHSimulation T) :
  particles s1 = particles s2 →
  handForces s1 = handForces s2 →
  width s1 = width s2 → height s1 = height s2 →
  gravity s1 = gravity s2 → gravityEnabled s1 = gravityEnabled s2 →
  cellSize (spatialHash s1) = cellSize (spatialHash s2) →
  substep s1 = substep s2.
Proof.
  destruct s1 as [w1 h1 ps1 g1 ge1 sh1 hf1], s2 as [w2 h2 ps2 g2 ge2 sh2 hf2].
  cbn [width height particles gravity gravityEnabled spatialHash handForces].
  intros -> -> -> -> -> -> Hc. unfold substep, set_spatialHash.
  cbn [width height particles gravity gravityEnabled spatialHash handForces].
  rewrite (rebuild_stale_grid sh1 sh2 ps2 Hc). done.
Qed.

(** C9: step is deterministic. Two runs from identical particle
    collections, identical external force lists and identical engine
    configuration (domain size, gravity vector and switch, cell size of the
    hash) end in the same state, equal field by field, whatever the buckets
    the spatial hash still holds from earlier calls; on doubles, equal
    values are identical bit for bit. *)
Theorem step_deterministic (s1 s2 : SPHSimulation T) :
  particles s1 = particles s2 →
  handForces s1 = handForces s2 →
  width s1 = width s2 → height s1 = height s2 →
  gravity s1 = gravity s2 → gravityEnabled s1 = gravityEnabled s2 →
  cellSize (spatialHash s1) = cellSize (spatialHash s2) →
  step s1 = step s2.
Proof.
  intros Hp Hf Hw Hh Hg Hge Hc. unfold step, SUBSTEPS. cbv [Nat.iter nat_rect].
  rewrite (substep_deterministic s1 s2) by done. done.
Qed.

End Determinism.

(** Two engines with the same two particles and the same hand force, one
    with an empty hash and one whose hash still holds buckets of an earlier
    collection. *)
Definition fresh_engine : SPHSimulation float :=
  (MkSim 800 600 [createParticle 100 100 0 0; createParticle 105 100 3 (-2)]
     (0, 400) true (new_SpatialHash H)
     [HandForce 110 90 50 0 None])%float.

Definition stale_engine : SPHSimulation float :=
  set_spatialHash fresh_engine
    (rebuild (new_SpatialHash H)
       [createParticle 20 30 0 0; createParticle 700 500 0 0]%float).

Lemma step_deterministic_witness :
  spatialHash fresh_engine ≠ spatialHash stale_engine ∧
  step fresh_engine = step stale_engine.
Proof.
  split.
  - intros E. apply (f_equal (λ sh, grid sh !! 0%Z)) in E.
    vm_compute in E. discriminate E.
  - apply (step_deterministic fresh_engine stale_engine); reflexivity.
Defined.

(** ** Two particles five apart, on doubles *)

Section TwoParticles.

Local Open Scope js_scope.
Import FloatOrder.
#[local] Existing Instance float_number.

(** Particles at (100,100) and (105,100), at rest, gravity disabled, no
    hand forces, in a domain of [w] by [h]; [g] is the gravity vector and
    [stale] what the grid of the hash holds from earlier calls. *)
Definition two_particles (w h : float) (g : float * float)
    (stale : gmap Z (list nat)) : SPHSimulation float :=
  (MkSim w h [createParticle 100 100 0 0; createParticle 105 100 0 0]
     g false (MkSpatialHash H stale) [])%float.

(** C8, refuted as stated: in a domain of 800 by 600, after one substep
    the left particle is right of 100 and the right particle left of 105;
    they have not moved apart. *)
Lemma two_particles_not_apart :
  ∃ a b, particles (substep (two_particles 800 600 (0, 400)%float ∅)) = [a; b] ∧
    p_x a = 0x1.910e2b62f1636p+6%float ∧ p_x b = 0x1.a2f1d49d0e9cap+6%float ∧
    ¬ (PrimFloat.ltb (p_x a) 100 = true ∧ PrimFloat.ltb 105 (p_x b) = true).
Proof.
  do 2 eexists. split; [vm_compute; reflexivity|].
  split; [reflexivity|]. split; [reflexivity|].
  intros [Ha _]. vm_compute in Ha. discriminate Ha.
Qed.

(** A coordinate between the margins passes both boundary tests. *)
Lemma collide_inside (size pos vel : float) :
  PrimFloat.leb PARTICLE_RADIUS pos = true →
  PrimFloat.leb pos (size - PARTICLE_RADIUS) = true →
  collide size pos vel = (pos, vel).
Proof.
  intros Hlo Hhi. unfold collide. float_ops.
  rewrite (leb_true_ltb _ _ Hlo), (leb_true_ltb _ _ Hhi). done.
Qed.

Lemma integrate_particle_inside (w h dt : float) (p : particle float) :
  let vx := euler_velocity dt (p_vx p) (p_fx p) (p_density p) in
  let vy := euler_velocity dt (p_vy p) (p_fy p) (p_density p) in
  let x := euler_position dt (p_x p) vx in
  let y := euler_position dt (p_y p) vy in
  PrimFloat.leb PARTICLE_RADIUS x = true →
  PrimFloat.leb x (w - PARTICLE_RADIUS) = true →
  PrimFloat.leb PARTICLE_RADIUS y = true →
  PrimFloat.leb y (h - PARTICLE_RADIUS) = true →
  integrate_particle w h dt p
  = Particle x y vx vy (p_fx p) (p_fy p) (p_density p) (p_pressure p).
Proof.
  unfold integrate_particle, euler_position, euler_velocity. cbv zeta.
  intros Hx1 Hx2 Hy1 Hy2.
  rewrite (collide_inside _ _ _ Hx1 Hx2), (collide_inside _ _ _ Hy1 Hy2).
  done.
Qed.

(** C8, amended: in any domain that holds both particles within its
    margins (105 <= width - 6 and 100 <= height - 6), whatever the gravity
    vector and the stale content of the hash, after one substep both
    particles have moved toward each other along the x-axis, by the same
    amount and without crossing (their density is below REST_DENSITY, so
    their pressure is negative and the pressure force attracts), and
    neither has moved along the y-axis. *)
Theorem two_particles_attract
    (w h : float) (g : float * float) (stale : gmap Z (list nat)) :
  PrimFloat.leb 105 (w - PARTICLE_RADIUS) = true →
  PrimFloat.leb 100 (h - PARTICLE_RADIUS) = true →
  ∃ a b, particles (substep (two_particles w h g stale)) = [a; b] ∧
    PrimFloat.ltb 100 (p_x a) = true ∧
    PrimFloat.ltb (p_x b) 105 = true ∧
    PrimFloat.ltb (p_x a) (p_x b) = true ∧
    PrimFloat.sub (p_x a) 100 = PrimFloat.sub 105 (p_x b) ∧
    p_y a = 100%float ∧ p_y b = 100%float ∧
    PrimFloat.ltb (p_density a) REST_DENSITY = true ∧
    PrimFloat.ltb (p_pressure a) 0 = true ∧
    PrimFloat.ltb (p_pressure b) 0 = true.
Proof.
  intros Hw Hh. unfold substep. rewrite integrate_particles.
  match goal with |- context [integrate_particle _ _ _ <$> ?l] =>
    set (pre := l) end.
  cbn [width height computeForces computeDensityPressure set_particles
       set_spatialHash two_particles].
  assert (Hpre : pre
    = [Particle 100 100 0 0 0x1.a671fb23c58e8p+15 0
         0x1.0c6cc4a2e0238p-3 (-0x1.e8379ddc7f8f1p+20);
       Particle 105 100 0 0 (-0x1.a671fb23c58e8p+15) 0
         0x1.0c6cc4a2e0238p-3 (-0x1.e8379ddc7f8f1p+20)]%float)
    by (vm_compute; reflexivity).
  rewrite Hpre. clear pre Hpre. cbn [fmap list_fmap].
  rewrite !integrate_particle_inside;
    try (vm_compute; reflexivity);
    try (refine (leb_trans _ 105 _ _ Hw); vm_compute; reflexivity);
    try (refine (leb_trans _ 100 _ _ Hh); vm_compute; reflexivity).
  do 2 eexists. split; [reflexivity|].
  repeat split; vm_compute; reflexivity.
Qed.

Lemma two_particles_attract_witness :
  ∃ a b, particles (substep (two_particles 800 600 (0, 400)%float ∅)) = [a; b] ∧
    PrimFloat.ltb 100 (p_x a) = true ∧
    PrimFloat.ltb (p_x b) 105 = true ∧
    PrimFloat.ltb (p_x a) (p_x b) = true ∧
    PrimFloat.sub (p_x a) 100 = PrimFloat.sub 105 (p_x b) ∧
    p_y a = 100%float ∧ p_y b = 100%float ∧
    PrimFloat.ltb (p_density a) REST_DENSITY = true ∧
    PrimFloat.ltb (p_pressure a) 0 = true ∧
    PrimFloat.ltb (p_pressure b) 0 = true.
Proof.
  apply (two_particles_attract 800 600 (0, 400)%float ∅);
    vm_compute; reflexivity.
Defined.

End TwoParticles.

(** ** Exact arithmetic: the operations of [real_number] *)

(** Rewrites the operations of [real_number] into those of [R]. *)
Ltac real_ops :=
  change (@num_ltb R real_number) with Exact.ltb in *;
  change (@num_add R real_number) with Rplus in *;
  change (@num_sub R real_number) with Rminus in *;
  change (@num_mul R real_number) with Rmult in *;
  change (@num_div R real_number) with Rdiv in *;
  change (@num_sqrt R real_number) with R_sqrt.sqrt in *;
  change (@num_floor R real_number) with Exact.floor in *;
  change (@num_of_Z R real_number) with IZR in *;
  change (@num_PI R real_number) with Rtrigo1.PI in *.

Section RealNumber.

Local Open Scope R_scope.
Local Abbreviation sqrt := R_sqrt.sqrt.

Lemma ltb_true (a b : R) : Exact.ltb a b = true ↔ a < b.
Proof. unfold Exact.ltb. destruct (Rlt_dec a b); split; done. Qed.

Lemma ltb_false (a b : R) : Exact.ltb a b = false ↔ b <= a.
Proof.
  unfold Exact.ltb. destruct (Rlt_dec a b); split; try done; intros; lra.
Qed.

Lemma floor_bounds (r : R) : Exact.floor r <= r < Exact.floor r + 1.
Proof. unfold Exact.floor. destruct (base_Int_part r). lra. Qed.

(** Two reals less than 1 apart have floors that differ by one of the
    offsets -1, 0, 1. *)
Lemma floor_near (a b : R) :
  Rabs (a - b) < 1 →
  ∃ d : Z, d ∈ offsets ∧ Exact.floor a = Exact.floor b + IZR d.
Proof.
  intros Hab. pose proof (floor_bounds a) as Ha.
  pose proof (floor_bounds b) as Hb. unfold Exact.floor in *.
  apply Rabs_def2 in Hab.
  assert (Hlo : (-2 < Int_part a - Int_part b)%Z).
  { apply lt_IZR. rewrite minus_IZR. lra. }
  assert (Hhi : (Int_part a - Int_part b < 2)%Z).
  { apply lt_IZR. rewrite minus_IZR. lra. }
  exists (Int_part a - Int_part b)%Z. split.
  - unfold offsets.
    assert (Int_part a - Int_part b = -1 ∨ Int_part a - Int_part b = 0
            ∨ Int_part a - Int_part b = 1)%Z as [-> | [-> | ->]] by lia;
      rewrite !elem_of_cons; auto.
  - rewrite minus_IZR. lra.
Qed.


(** The constants, in exact arithmetic. *)
Lemma H_real : H (T:=R) = 35.
Proof. reflexivity. Qed.

Lemma H2_real : H2 (T:=R) = 1225.
Proof. unfold H2, H. real_ops. lra. Qed.


Lemma sqrt_lt_35 (s : R) : 0 <= s → sqrt s < 35 → s < 1225.
Proof.
  intros Hs Hlt. destruct (Rlt_dec s 1225) as [|Hge]; [done|].
  assert (Hle : sqrt 1225 <= sqrt s) by (apply sqrt_le_1_alt; lra).
  replace 1225 with (35 * 35) in Hle by lra.
  rewrite sqrt_square in Hle by lra. lra.
Qed.

End RealNumber.

(** ** The spatial hash has no false negative *)

Section Cover.

Local Open Scope R_scope.
Local Abbreviation sqrt := R_sqrt.sqrt.

(** The Euclidean distance between two points. *)
Definition distance (x1 y1 x2 y2 : R) : R :=
  sqrt ((x1 - x2) * (x1 - x2) + (y1 - y2) * (y1 - y2)).

Lemma distance_axes (x1 y1 x2 y2 : R) :
  distance x1 y1 x2 y2 < 35 →
  Rabs (x1 / 35 - x2 / 35) < 1 ∧ Rabs (y1 / 35 - y2 / 35) < 1.
Proof.
  unfold distance. intros Hd.
  pose proof (Rle_0_sqr (x1 - x2)) as Hx. pose proof (Rle_0_sqr (y1 - y2)) as Hy.
  unfold Rsqr in Hx, Hy.
  apply sqrt_lt_35 in Hd; [|lra].
  assert (Hbound : ∀ u : R, u * u < 1225 → -35 < u < 35).
  { intros u Hu. split.
    - destruct (Rlt_dec (-35) u); [done|]. nra.
    - destruct (Rlt_dec u 35); [done|]. nra. }
  destruct (Hbound (x1 - x2)) as [? ?]; [lra|].
  destruct (Hbound (y1 - y2)) as [? ?]; [lra|].
  split; apply Rabs_def1; lra.
Qed.

(** C1: for every finite particle collection inserted into a spatial hash
    of cell size H, whatever the hash held before, and every query point
    (x, y), the list getNeighbors(x, y) returns contains every particle
    whose Euclidean distance from (x, y) is strictly less than H (exact real
    arithmetic; keys as ToInt32 and XOR compute them, collisions
    included). *)
Theorem neighbors_cover_radius
    (sh : SpatialHash R) (ps : list (particle R)) (x y : R)
    (i : nat) (p : particle R) :
  cellSize sh = H →
  ps !! i = Some p →
  distance (p_x p) (p_y p) x y < H →
  i ∈ getNeighbors (rebuild sh ps) x y.
Proof.
  intros Hc Hp Hd. rewrite H_real in Hd.
  apply distance_axes in Hd as [Hx Hy].
  apply elem_of_getNeighbors_rebuild. split; [by eapply lookup_lt_Some|].
  destruct (floor_near _ _ Hx) as (dx & Hdx & Ex).
  destruct (floor_near _ _ Hy) as (dy & Hdy & Ey).
  exists dx, dy. split; [done|]. split; [done|].
  rewrite (keyAt_lookup sh ps i p Hp). unfold getKey. rewrite Hc, H_real.
  real_ops. rewrite Ex, Ey. done.
Qed.

(** Three particles and a query point: the first is 30 away from the
    point, in an adjacent cell. *)
Definition three_particles : list (particle R) :=
  [createParticle 40 50 0 0; createParticle 400 50 0 0;
   createParticle 33 36 0 0].

Lemma neighbors_cover_radius_witness :
  0%nat ∈ getNeighbors (rebuild (new_SpatialHash H) three_particles) 10 50.
Proof.
  apply (neighbors_cover_radius (new_SpatialHash H) three_particles 10 50 0
           (createParticle 40 50 0 0)).
  - reflexivity.
  - reflexivity.
  - unfold distance, createParticle, p_x, p_y. rewrite H_real.
    replace ((40 - 10) * (40 - 10) + (50 - 50) * (50 - 50)) with (30 * 30)
      by lra.
    rewrite sqrt_square by lra. lra.
Defined.

End Cover.

(** ** Densities in exact arithmetic *)

Section Density.

Local Open Scope R_scope.
Local Abbreviation sqrt := R_sqrt.sqrt.
Local Abbreviation PI := Rtrigo1.PI.

(** The self-term PARTICLE_MASS * POLY6_COEFF * (H2)^3 of the density. *)
Definition self_density : R :=
  (PARTICLE_MASS * POLY6_COEFF * H2 * H2 * H2)%js.

Lemma Math_pow_real (b : R) (n : nat) : Math_pow b n = b ^ n.
Proof. induction n as [|n IH]; cbn; real_ops; [done|]. rewrite IH. done. Qed.

Lemma poly6_mass_pos : 0 < (PARTICLE_MASS * POLY6_COEFF)%js.
Proof.
  unfold PARTICLE_MASS, POLY6_COEFF. rewrite Math_pow_real. real_ops.
  rewrite H_real. pose proof PI_RGT_0 as Hpi.
  apply Rmult_lt_0_compat; [lra|].
  apply Rdiv_lt_0_compat; [lra|].
  apply Rmult_lt_0_compat; [done|]. apply pow_lt. lra.
Qed.

Lemma self_density_pos : 0 < self_density.
Proof.
  unfold self_density. pose proof poly6_mass_pos as Hk. real_ops.
  rewrite H2_real. nra.
Qed.

(** What one neighbor adds to the density of [pi]. *)
Definition weight (pi pj : particle R) : R :=
  if (pair_r2 pi pj <? H2)%js
  then (PARTICLE_MASS * POLY6_COEFF)%js
       * (H2 - pair_r2 pi pj) * (H2 - pair_r2 pi pj) * (H2 - pair_r2 pi pj)
  else 0.

Lemma density_term_weight (pi pj : particle R) (acc : R) :
  density_term pi pj acc = acc + weight pi pj.
Proof.
  unfold density_term, weight, pair_r2. real_ops.
  destruct (Exact.ltb _ _); lra.
Qed.













End Density.

(** ** Coincident particles *)

Section CoincidentDoubles.

Local Open Scope js_scope.
#[local] Existing Instance float_number.

(** A double that is a zero or NaN. *)
Definition zero_or_nan (x : float) : Prop :=
  Prim2SF x = S754_nan ∨ ∃ s, Prim2SF x = S754_zero s.

Lemma sub_self_zero_or_nan (x : float) : zero_or_nan (PrimFloat.sub x x).
Proof.
  unfold zero_or_nan. rewrite sub_spec.
  destruct (Prim2SF x) as [s|s| |s m e]; cbn.
  - right. destruct s; eauto.
  - left. destruct s; done.
  - by left.
  - right. unfold SF64sub, SFsub. rewrite Z.sub_diag. cbn. eauto.
Qed.

Lemma mul_zero_or_nan (x y : float) :
  zero_or_nan x → zero_or_nan y → zero_or_nan (PrimFloat.mul x y).
Proof.
  unfold zero_or_nan. rewrite mul_spec.
  intros [->|[sx ->]] [->|[sy ->]]; cbn; eauto.
Qed.

Lemma add_zero_or_nan (x y : float) :
  zero_or_nan x → zero_or_nan y → zero_or_nan (PrimFloat.add x y).
Proof.
  unfold zero_or_nan. rewrite add_spec.
  intros [->|[sx ->]] [->|[sy ->]]; cbn; eauto.
  destruct sx, sy; eauto.
Qed.

Lemma zero_or_nan_not_above_EPS (x : float) :
  zero_or_nan x → (x >? EPS) = false.
Proof.
  float_ops. rewrite FloatAxioms.ltb_spec.
  intros [->|[s ->]]; vm_compute; reflexivity.
Qed.

(** On doubles, whatever the common position (finite or not), the guard
    of the force loop rejects a pair of coincident particles: their r2 is
    0 or NaN, never above 0.0001. *)
Lemma coincident_pair_excluded_on_doubles (pi pj : particle float) :
  p_x pi = p_x pj → p_y pi = p_y pj →
  interacts pi pj = false ∧ ∀ acc, force_term pi pj acc = acc.
Proof.
  intros Ex Ey.
  assert (Hr : (pair_r2 pi pj >? EPS) = false).
  { apply zero_or_nan_not_above_EPS. unfold pair_r2. float_ops.
    rewrite Ex, Ey.
    apply add_zero_or_nan; apply mul_zero_or_nan; apply sub_self_zero_or_nan. }
  split.
  - unfold interacts. rewrite Hr. apply andb_false_r.
  - intros [[[fpx fpy] fvx] fvy]. unfold force_term.
    fold (pair_r2 pi pj). rewrite Hr, andb_false_r. done.
Qed.

End CoincidentDoubles.

Section Coincident.

Local Open Scope R_scope.
Local Abbreviation sqrt := R_sqrt.sqrt.








End Coincident.

(** ** Gravity and hand forces in exact arithmetic *)

Section Forces.

Local Open Scope R_scope.
Local Abbreviation sqrt := R_sqrt.sqrt.





















End Forces.

(** ** The doubles of the source *)

Section Doubles.

Local Open Scope float_scope.

(** The literals of the source, as [dec] and [num_of_Z] build them. *)
Example float_literals :
  (DT, DT_MAX, DAMPING, EPS, PARTICLE_RADIUS, H, H2)
  = (0x1.a36e2eb1c432dp-11, 0x1.89374bc6a7efap-9, -0.5,
     0x1.a36e2eb1c432dp-14, 6, 35, 1225).
Proof. vm_compute. reflexivity. Qed.

(** Math.pow(35, 8) and Math.pow(35, 5) are integers below 2^53. *)
Example float_powers :
  (Math_pow H 8, Math_pow H 5) = (2251875390625, 52521875).
Proof. vm_compute. reflexivity. Qed.

Example float_floor_samples :
  map Float64.floor [2.5; -2.5; 0.25; -0.25; 3; -0; 0x1p+1000;
                     4503599627370495.5; infinity]
  = [2; -3; 0; -1; 3; -0; 0x1p+1000; 4503599627370495; infinity].
Proof. vm_compute. reflexivity. Qed.

Example float_toInt32_samples :
  map Float64.toInt32 [0; 1; -1; 2.5; -2.5; 2147483648; 4294967301;
                       -2147483649; 2392863557107; infinity; nan]
  = [0; 1; -1; 2; -2; -2147483648; 5; 2147483647; 566773235; 0; 0]%Z.
Proof. vm_compute. reflexivity. Qed.

(** The keys of the cells of (100,100) and (105,100). *)
Example float_keys :
  (getKey (new_SpatialHash H) 100 100, getKey (new_SpatialHash H) 105 100)
  = (176384388, 259677225)%Z.
Proof. vm_compute. reflexivity. Qed.

End Doubles.


(** * Further properties of the engine, the tracker and the renderer *)

(** ** The spatial hash: clear, insert and queries *)

Section HashQueries.

Context {T : Type} {number : JsNumber T}.
Local Open Scope js_scope.

Implicit Types (ps : list (particle T)) (sh : SpatialHash T).

(** The nine keys getNeighbors looks up around ([x], [y]), in the order of
    its loops. *)
Definition nine_keys sh (x y : T) : list Z :=
  flat_map (λ dx : Z,
    map (λ dy : Z,
      cellKey (num_floor (x / cellSize sh) + #dx)
              (num_floor (y / cellSize sh) + #dy)) offsets) offsets.

(** The bucket of a key; a key the Map does not hold has no particles. *)
Definition bucket sh (k : Z) : list nat := default [] (grid sh !! k).

Lemma getNeighbors_buckets sh x y :
  getNeighbors sh x y = flat_map (bucket sh) (nine_keys sh x y).
Proof.
  unfold getNeighbors, nine_keys, offsets, bucket. cbn [flat_map map app].
  rewrite ?app_nil_r, <- ?app_assoc. done.
Qed.

Lemma filter_flat_map {A B : Type} (P : B → Prop) `{!∀ b, Decision (P b)}
    (f : A → list B) (l : list A) :
  filter P (flat_map f l) = flat_map (λ a, filter P (f a)) l.
Proof.
  induction l as [|a l IH]; [done|]. cbn [flat_map].
  rewrite filter_app, IH. done.
Qed.

Lemma bucket_insert sh i p k :
  bucket (insert sh i p) k
  = if decide (getKey sh (p_x p) (p_y p) = k)
    then bucket sh k ++ [i] else bucket sh k.
Proof.
  unfold bucket, insert. cbn [grid]. case_decide as Hk.
  - rewrite Hk, lookup_insert_eq. done.
  - rewrite lookup_insert_ne by done. done.
Qed.

(** X1: insert changes the answer of a query only by occurrences of the
    inserted index: what getNeighbors returned before is still returned,
    in the same order, and every index it returns besides is the inserted
    one. The cell size is untouched. *)
Theorem insert_only_adds sh (i : nat) (p : particle T) (x y : T) :
  filter (λ j, j ≠ i) (getNeighbors (insert sh i p) x y)
  = filter (λ j, j ≠ i) (getNeighbors sh x y) ∧
  getNeighbors sh x y ⊆ getNeighbors (insert sh i p) x y ∧
  cellSize (insert sh i p) = cellSize sh.
Proof.
  assert (Hk : nine_keys (insert sh i p) x y = nine_keys sh x y) by done.
  split; [|split; [|done]].
  - rewrite !getNeighbors_buckets, Hk, !filter_flat_map.
    apply flat_map_ext. intros k. rewrite bucket_insert.
    case_decide; [|done]. rewrite filter_app.
    rewrite (filter_cons_False _ i) by (intros Hne; by apply Hne).
    rewrite filter_nil, app_nil_r. done.
  - intros j. rewrite !getNeighbors_buckets, Hk, !list_elem_of_In, !in_flat_map.
    intros (k & Hin & Hj). exists k. split; [done|].
    rewrite bucket_insert. case_decide; [|done].
    apply in_or_app. by left.
Qed.

(** X2: on the rebuilt hash getNeighbors returns the index [i] exactly
    when [i] is an index of the particle list and the key insert filed it
    under is one of the nine keys of the query; it never returns an index
    outside the list. *)
Theorem rebuilt_query_exact sh ps (x y : T) (i : nat) :
  i ∈ getNeighbors (rebuild sh ps) x y ↔
  i < length ps ∧ keyAt sh ps i ∈ nine_keys sh x y.
Proof.
  rewrite elem_of_getNeighbors_rebuild. unfold nine_keys.
  split.
  - intros (Hi & dx & dy & Hdx & Hdy & Hk). split; [done|].
    apply list_elem_of_In, in_flat_map. exists dx.
    split; [by apply list_elem_of_In|]. apply in_map_iff. exists dy.
    split; [done|by apply list_elem_of_In].
  - intros (Hi & Hk). split; [done|].
    apply list_elem_of_In, in_flat_map in Hk as (dx & Hdx & Hk).
    apply in_map_iff in Hk as (dy & Hk & Hdy).
    exists dx, dy. rewrite <- !list_elem_of_In in *. done.
Qed.

End HashQueries.


Section HashInvariants.

Context {T : Type} {number : JsNumber T}.
Local Open Scope js_scope.

Implicit Types (ps : list (particle T)) (sh : SpatialHash T).

Lemma filter_seq_sorted (P : nat → Prop) `{!∀ j, Decision (P j)} (n : nat) :
  StronglySorted lt (filter P (seq 0 n)) ∧
  ∀ j, j ∈ filter P (seq 0 n) → j < n.
Proof.
  induction n as [|n [IHs IHb]].
  - split; [constructor|]. intros j Hj. by apply elem_of_nil in Hj.
  - rewrite seq_S, filter_app. cbn [Nat.add]. split.
    + apply StronglySorted_app_2; [| done |].
      * intros a b Ha Hb. apply IHb in Ha.
        apply list_elem_of_filter in Hb as [_ Hb].
        apply list_elem_of_singleton in Hb as ->. done.
      * destruct (decide (P n)).
        -- rewrite filter_cons_True by done. repeat constructor.
        -- rewrite filter_cons_False by done. constructor.
    + intros j Hj. apply elem_of_app in Hj as [Hj|Hj].
      * apply IHb in Hj. lia.
      * apply list_elem_of_filter in Hj as [_ Hj].
        apply list_elem_of_singleton in Hj as ->. lia.
Qed.

Lemma rebuild_no_empty_bucket sh ps n k l :
  grid (foldl (insert_step ps) (clear sh) (seq 0 n)) !! k = Some l → l ≠ [].
Proof.
  revert k l. induction n as [|n IH]; intros k l.
  - cbn. rewrite lookup_empty. done.
  - rewrite seq_S, foldl_app. cbn [foldl Nat.add].
    set (sh' := foldl (insert_step ps) (clear sh) (seq 0 n)) in *.
    unfold insert_step at 1. destruct (ps !! n) as [p|]; [|apply IH].
    unfold insert. cbn [grid]. rewrite lookup_insert. case_decide.
    + intros [= <-]. by destruct (default [] _).
    + apply IH.
Qed.

(** X3: in the rebuilt hash every bucket lists indices of the particle
    list in strictly increasing order, so without repetition; the bucket of
    a key holds exactly the particles insert filed under that key, hence
    every particle is in one bucket and one only; and the Map holds no
    empty bucket. *)
Theorem rebuilt_buckets_partition sh ps (k : Z) :
  StronglySorted lt (bucket (rebuild sh ps) k) ∧
  NoDup (bucket (rebuild sh ps) k) ∧
  (∀ i, i ∈ bucket (rebuild sh ps) k ↔ i < length ps ∧ keyAt sh ps i = k) ∧
  grid (rebuild sh ps) !! k ≠ Some [].
Proof.
  unfold bucket. rewrite rebuild_bucket.
  destruct (filter_seq_sorted (λ i, keyAt sh ps i = k) (length ps)) as [Hs Hb].
  split; [done|]. split.
  { apply NoDup_filter, NoDup_seq. }
  split.
  - intros i. rewrite list_elem_of_filter, elem_of_seq. split.
    + intros [Hk Hi]. split; [lia|done].
    + intros [Hi Hk]. split; [done|lia].
  - intros Hl. by apply (rebuild_no_empty_bucket sh ps (length ps) k []).
Qed.

Lemma bucket_rebuild sh ps k :
  bucket (rebuild sh ps) k
  = filter (λ i, keyAt sh ps i = k) (seq 0 (length ps)).
Proof. apply rebuild_bucket. Qed.

Lemma buckets_NoDup sh ps (ks : list Z) :
  NoDup ks → NoDup (flat_map (bucket (rebuild sh ps)) ks).
Proof.
  induction ks as [|k ks IH]; intros Hks; [constructor|].
  apply NoDup_cons in Hks as [Hk Hks]. cbn [flat_map].
  apply NoDup_app. split; [|split; [|by apply IH]].
  - rewrite bucket_rebuild. apply NoDup_filter, NoDup_seq.
  - intros i Hi Hi'. rewrite bucket_rebuild in Hi.
    apply list_elem_of_filter in Hi as [Hi _].
    apply list_elem_of_In, in_flat_map in Hi' as (k' & Hk' & Hi').
    apply list_elem_of_In in Hi'. rewrite bucket_rebuild in Hi'.
    apply list_elem_of_filter in Hi' as [Hi' _].
    apply Hk. rewrite <- Hi, Hi'. by apply list_elem_of_In.
Qed.

(** X4: when the nine keys of a query are pairwise different (no two of
    the nine cells collide), getNeighbors on the rebuilt hash returns no
    particle twice. *)
Theorem distinct_keys_no_duplicates sh ps (x y : T) :
  NoDup (nine_keys sh x y) →
  NoDup (getNeighbors (rebuild sh ps) x y).
Proof.
  intros Hks. rewrite getNeighbors_buckets.
  assert (Hk : nine_keys (rebuild sh ps) x y = nine_keys sh x y).
  { unfold nine_keys. rewrite rebuild_cellSize. done. }
  rewrite Hk. by apply buckets_NoDup.
Qed.

End HashInvariants.

Lemma distinct_keys_no_duplicates_witness :
  NoDup (getNeighbors
           (rebuild (new_SpatialHash H)
              [createParticle 100 100 0 0; createParticle 105 100 0 0;
               createParticle 300 100 0 0]%float)
           100%float 100%float).
Proof.
  apply (distinct_keys_no_duplicates (new_SpatialHash H)).
  apply (bool_decide_unpack _). vm_compute. exact I.
Defined.

Section HashOnDoubles.

Local Open Scope js_scope.
#[local] Existing Instance float_number.

(** X5: insert followed by a query at the position of the inserted
    particle finds it, for every hash (whatever its cell size and content)
    and every position a double can hold, NaN and the infinities
    included. *)
Theorem insert_then_query_finds
    (sh : SpatialHash float) (i : nat) (p : particle float) :
  i ∈ getNeighbors (insert sh i p) (p_x p) (p_y p).
Proof.
  rewrite getNeighbors_buckets. apply list_elem_of_In, in_flat_map.
  exists (getKey sh (p_x p) (p_y p)). split.
  - unfold getKey. rewrite <- float_cellKey_zero.
    unfold nine_keys, offsets. cbn [flat_map map app insert cellSize].
    do 4 right. by left.
  - apply list_elem_of_In. rewrite bucket_insert, decide_True by done.
    apply elem_of_app. right. apply list_elem_of_singleton. done.
Qed.

Lemma wrap32_range (z : Z) : (- 2 ^ 31 <= wrap32 z < 2 ^ 31)%Z.
Proof.
  unfold wrap32. pose proof (Z.mod_pos_bound (z + 2 ^ 31) (2 ^ 32)). lia.
Qed.

Lemma int32_shiftr (a : Z) :
  (- 2 ^ 31 <= a < 2 ^ 31)%Z ↔ (Z.shiftr a 31 = 0 ∨ Z.shiftr a 31 = -1)%Z.
Proof.
  rewrite Z.shiftr_div_pow2 by lia. split.
  - intros Ha. destruct (Z_lt_le_dec a 0).
    + right. symmetry. apply Z.div_unique with (r := (a + 2 ^ 31)%Z); lia.
    + left. apply Z.div_small. lia.
  - pose proof (Z.div_mod a (2 ^ 31) ltac:(lia)) as Hd.
    pose proof (Z.mod_pos_bound a (2 ^ 31) ltac:(lia)) as Hm.
    intros [E|E]; rewrite E in Hd; lia.
Qed.

Lemma int32_xor_range (a b : Z) :
  (- 2 ^ 31 <= a < 2 ^ 31)%Z → (- 2 ^ 31 <= b < 2 ^ 31)%Z →
  (- 2 ^ 31 <= int32_xor a b < 2 ^ 31)%Z.
Proof.
  rewrite !int32_shiftr. unfold int32_xor. rewrite Z.shiftr_lxor.
  intros [-> | ->] [-> | ->]; cbn; auto.
Qed.

(** X6: the key of every point, and so every key of the Map, is a
    32-bit signed integer, for every cell size and every double. *)
Theorem key_is_int32 (sh : SpatialHash float) (x y : float) :
  (- 2 ^ 31 <= getKey sh x y < 2 ^ 31)%Z ∧
  Forall (λ k, - 2 ^ 31 <= k < 2 ^ 31)%Z (nine_keys sh x y).
Proof.
  assert (Hk : ∀ cx cy : float, (- 2 ^ 31 <= cellKey cx cy < 2 ^ 31)%Z).
  { intros cx cy. unfold cellKey. apply int32_xor_range; apply wrap32_range. }
  split; [apply Hk|].
  unfold nine_keys, offsets. cbn [flat_map map app].
  repeat (apply Forall_cons; split; [apply Hk|]). constructor.
Qed.

End HashOnDoubles.


(** ** The three passes and step, for any arithmetic *)

Section PassFrames.

Context {T : Type} {number : JsNumber T}.
Local Open Scope js_scope.

Implicit Types (p q : particle T) (ps st : list (particle T)).
Implicit Types (s : SPHSimulation T) (sh : SpatialHash T).

(** What a particle carries from one substep to the next. *)
Definition motion p : T * T * T * T := (p_x p, p_y p, p_vx p, p_vy p).

(** Everything but density and pressure. *)
Definition dynamics p : T * T * T * T * T * T :=
  (p_x p, p_y p, p_vx p, p_vy p, p_fx p, p_fy p).

(** The fields the passes work in: fx, fy, density, pressure. *)
Definition scratch p : T * T * T * T :=
  (p_fx p, p_fy p, p_density p, p_pressure p).

(** [pi.pressure = GAS_CONSTANT * (pi.density - REST_DENSITY)] *)
Definition pressure_of_density p : Prop :=
  p_pressure p = GAS_CONSTANT * (p_density p - REST_DENSITY).

(** The fields of the simulation that are not particles, with the cell
    size of its hash. *)
Definition settings s :=
  (width s, height s, gravity s, gravityEnabled s, handForces s,
   cellSize (spatialHash s)).

(** The store with fx, fy of every particle replaced by [g]'s values. *)
Definition overwrite_forces (g : particle T → T * T) s : SPHSimulation T :=
  set_particles s ((λ p, set_force p (g p).1 (g p).2) <$> particles s).

(** The store with fx, fy, density and pressure of every particle replaced
    by [g]'s values. *)
Definition overwrite_scratch (g : particle T → T * T * T * T) s
  : SPHSimulation T :=
  set_particles s
    ((λ p, let '(fx, fy, d, pr) := g p in
           Particle (p_x p) (p_y p) (p_vx p) (p_vy p) fx fy d pr)
       <$> particles s).

Lemma fmap_coarser {A B : Type} (f : particle T → A) (g : A → B)
    (h : particle T → B) st st' :
  (∀ p, h p = g (f p)) → f <$> st = f <$> st' → h <$> st = h <$> st'.
Proof.
  intros Hh E.
  rewrite (list_fmap_ext h (g ∘ f) st), (list_fmap_ext h (g ∘ f) st')
    by (intros; apply Hh).
  rewrite !list_fmap_compose, E. done.
Qed.

Lemma foldl_ext_all {A B : Type} (f g : A → B → A) (a : A) (l : list B) :
  (∀ a b, f a b = g a b) → foldl f a l = foldl g a l.
Proof.
  intros E. revert a. induction l as [|b l IH]; intros a; [done|].
  cbn [foldl]. rewrite E. apply IH.
Qed.

Lemma density_pass_lookup sh ps i :
  for_each_particle (density_body sh) ps !! i
  = density_body sh ps i <$> ps !! i.
Proof.
  apply (for_each_particle_lookup position).
  - done.
  - intros st st' j p E. unfold density_body.
    rewrite (density_of_position st st') by done. done.
Qed.

Lemma force_pass_lookup sh gx gy hands ps i :
  for_each_particle (force_body sh gx gy hands) ps !! i
  = force_body sh gx gy hands ps i <$> ps !! i.
Proof.
  apply (for_each_particle_lookup kinematics).
  - intros st j p. unfold force_body.
    destruct (pair_forces _ _ _ _) as [[[fpx fpy] fvx] fvy].
    rewrite hands_kinematics. done.
  - intros st st' j p E. unfold force_body.
    rewrite (pair_forces_kinematics st st') by done. done.
Qed.

Lemma density_body_dynamics sh st i p :
  dynamics (density_body sh st i p) = dynamics p.
Proof. done. Qed.

Lemma force_body_kinematics_kept sh gx gy hands st i p :
  kinematics (force_body sh gx gy hands st i p) = kinematics p.
Proof.
  unfold force_body. destruct (pair_forces _ _ _ _) as [[[fpx fpy] fvx] fvy].
  rewrite hands_kinematics. done.
Qed.

Lemma integrate_particle_scratch w h dt p :
  scratch (integrate_particle w h dt p) = scratch p.
Proof.
  unfold integrate_particle. do 2 destruct (collide _ _ _). done.
Qed.

Lemma pass_fmap {A : Type} (f : particle T → A)
    (body : nat → particle T → particle T) ps ps' :
  (∀ i, ps' !! i = body i <$> ps !! i) →
  (∀ i p, f (body i p) = f p) →
  f <$> ps' = f <$> ps.
Proof.
  intros Hl Hf. apply list_eq. intros i.
  rewrite !list_lookup_fmap, Hl. destruct (ps !! i) as [p|]; [|done].
  cbn. rewrite Hf. done.
Qed.

Lemma pass_length (body : nat → particle T → particle T) ps ps' :
  (∀ i, ps' !! i = body i <$> ps !! i) → length ps' = length ps.
Proof.
  intros Hl.
  rewrite <- (length_fmap (λ _, ()) ps'), <- (length_fmap (λ _, ()) ps).
  f_equal. by apply (pass_fmap _ body).
Qed.

(** X7: computeDensityPressure writes density and pressure and nothing
    else: x, y, vx, vy, fx and fy of every particle, the number of
    particles, the settings and the hash are as before, and every particle
    leaves the pass with pressure = GAS_CONSTANT * (density -
    REST_DENSITY). *)
Theorem density_pass_frame s :
  dynamics <$> particles (computeDensityPressure s)
    = dynamics <$> particles s ∧
  Forall pressure_of_density (particles (computeDensityPressure s)) ∧
  settings (computeDensityPressure s) = settings s ∧
  spatialHash (computeDensityPressure s) = spatialHash s.
Proof.
  split; [|split; [|done]].
  - apply (pass_fmap _ (density_body (spatialHash s) (particles s))).
    + apply computeDensityPressure_lookup.
    + done.
  - apply Forall_lookup. intros i q Hq.
    rewrite computeDensityPressure_lookup in Hq.
    destruct (particles s !! i) as [p|]; [|done].
    apply (inj Some) in Hq as <-. done.
Qed.

Lemma density_term_own_position pi pi' pj acc :
  position pi = position pi' →
  density_term pi pj acc = density_term pi' pj acc.
Proof. unfold position, density_term. intros [= -> ->]. done. Qed.

Lemma density_of_own_position st nb pi pi' :
  position pi = position pi' →
  density_of st nb pi = density_of st nb pi'.
Proof.
  intros E. unfold density_of. apply foldl_ext_all. intros acc j.
  destruct (st !! j); [|done]. by apply density_term_own_position.
Qed.

Lemma force_term_self pi pi' pj acc :
  kinematics pi = kinematics pi' →
  force_term pi pj acc = force_term pi' pj acc.
Proof.
  unfold kinematics, force_term. intros [= -> -> -> -> _ ->]. done.
Qed.

Lemma pair_forces_self st nb i pi pi' :
  kinematics pi = kinematics pi' →
  pair_forces st nb i pi = pair_forces st nb i pi'.
Proof.
  intros E. unfold pair_forces. apply foldl_ext_all. intros acc j.
  case_decide; [done|]. destruct (st !! j); [|done]. by apply force_term_self.
Qed.

Lemma force_body_kinematics sh gx gy hands st st' i p p' :
  kinematics <$> st = kinematics <$> st' →
  kinematics p = kinematics p' →
  force_body sh gx gy hands st i p = force_body sh gx gy hands st' i p'.
Proof.
  intros Est Ep. unfold force_body.
  rewrite (pair_forces_kinematics st st') by done.
  rewrite (pair_forces_self st' _ i p p') by done.
  unfold kinematics in Ep. injection Ep as Ex Ey Evx Evy Ed Epr.
  rewrite Ex, Ey.
  destruct (pair_forces _ _ _ _) as [[[fpx fpy] fvx] fvy].
  unfold set_force. rewrite Ex, Ey, Evx, Evy, Ed, Epr. done.
Qed.

Lemma force_pass_kinematics sh gx gy hands ps ps' :
  kinematics <$> ps = kinematics <$> ps' →
  for_each_particle (force_body sh gx gy hands) ps
  = for_each_particle (force_body sh gx gy hands) ps'.
Proof.
  intros E. apply list_eq. intros i. rewrite !force_pass_lookup.
  pose proof (lookup_frozen kinematics ps ps' i E) as Ei.
  destruct (ps !! i) as [p|], (ps' !! i) as [p'|]; try discriminate Ei; [|done].
  apply (inj Some) in Ei. cbn. f_equal. by apply force_body_kinematics.
Qed.

Lemma density_pass_motion sh ps ps' :
  motion <$> ps = motion <$> ps' →
  kinematics <$> for_each_particle (density_body sh) ps
  = kinematics <$> for_each_particle (density_body sh) ps'.
Proof.
  intros E. apply list_eq. intros i.
  rewrite !list_lookup_fmap, !density_pass_lookup.
  assert (Epos : position <$> ps = position <$> ps').
  { revert E. apply (fmap_coarser motion (λ m, (m.1.1.1, m.1.1.2))). done. }
  pose proof (lookup_frozen motion ps ps' i E) as Ei.
  destruct (ps !! i) as [p|], (ps' !! i) as [p'|]; try discriminate Ei; [|done].
  apply (inj Some) in Ei. cbn. f_equal.
  unfold motion in Ei. injection Ei as Ex Ey Evx Evy.
  unfold density_body, kinematics.
  cbn [p_x p_y p_vx p_vy p_density p_pressure].
  rewrite (density_of_position ps ps') by done.
  rewrite (density_of_own_position ps' _ p p') by (unfold position; congruence).
  rewrite Ex, Ey, Evx, Evy. done.
Qed.

Lemma rebuild_position sh ps ps' :
  position <$> ps = position <$> ps' → rebuild sh ps = rebuild sh ps'.
Proof.
  intros E. unfold rebuild.
  assert (El : length ps = length ps').
  { rewrite <- (length_fmap position ps), E, length_fmap. done. }
  rewrite El. apply foldl_ext_all. intros sh' i.
  pose proof (lookup_frozen position ps ps' i E) as Ei.
  destruct (ps !! i) as [p|], (ps' !! i) as [p'|]; try discriminate Ei; [|done].
  apply (inj Some) in Ei. unfold position in Ei. injection Ei as Ex Ey.
  unfold insert. rewrite Ex, Ey. done.
Qed.

(** X8: computeForces assigns fx and fy without reading their old
    values, so whatever they held before the pass has no effect on its
    result; and the pass changes nothing but fx and fy. *)
Theorem force_pass_overwrites (g : particle T → T * T) s :
  computeForces (overwrite_forces g s) = computeForces s ∧
  kinematics <$> particles (computeForces s) = kinematics <$> particles s ∧
  settings (computeForces s) = settings s ∧
  spatialHash (computeForces s) = spatialHash s.
Proof.
  split; [|split; [|done]].
  - unfold computeForces, overwrite_forces, set_particles.
    cbn [width height particles gravity gravityEnabled spatialHash handForces].
    f_equal. apply force_pass_kinematics.
    rewrite <- list_fmap_compose. apply list_fmap_ext. done.
  - apply (pass_fmap _ (force_body (spatialHash s)
             (if gravityEnabled s then (gravity s).1 else #0)
             (if gravityEnabled s then (gravity s).2 else #0)
             (handForces s) (particles s))).
    + apply computeForces_lookup.
    + intros i p. apply force_body_kinematics_kept.
Qed.

Lemma substep_particles s :
  particles (substep s)
  = integrate_particle (width s) (height s) DT <$>
      for_each_particle
        (force_body (rebuild (spatialHash s) (particles s))
           (if gravityEnabled s then (gravity s).1 else #0)
           (if gravityEnabled s then (gravity s).2 else #0)
           (handForces s))
        (for_each_particle
           (density_body (rebuild (spatialHash s) (particles s)))
           (particles s)).
Proof. unfold substep. rewrite integrate_particles. done. Qed.

Lemma substep_length s :
  length (particles (substep s)) = length (particles s).
Proof.
  rewrite substep_particles, length_fmap.
  rewrite (pass_length _ _ _ (force_pass_lookup _ _ _ _ _)).
  apply (pass_length _ _ _ (density_pass_lookup _ _)).
Qed.

Lemma substep_settings s : settings (substep s) = settings s.
Proof.
  unfold settings, substep. cbn [width height gravity gravityEnabled handForces
    spatialHash integrate computeForces computeDensityPressure set_particles
    set_spatialHash]. rewrite rebuild_cellSize. done.
Qed.

Lemma substep_spatialHash s :
  spatialHash (substep s) = rebuild (spatialHash s) (particles s).
Proof. done. Qed.

Lemma step_unfold s : step s = substep (substep (substep (substep s))).
Proof. done. Qed.

(** X9: step neither creates nor removes a particle and leaves the
    settings alone: the width and height, the gravity vector and its switch,
    the hand forces and the cell size of the hash. *)
Theorem step_preserves_configuration s :
  getParticleCount (step s) = getParticleCount s ∧
  settings (step s) = settings s.
Proof.
  rewrite step_unfold. unfold getParticleCount.
  rewrite !substep_length, !substep_settings. done.
Qed.

Lemma simulation_eq s s' :
  width s = width s' → height s = height s' →
  particles s = particles s' → gravity s = gravity s' →
  gravityEnabled s = gravityEnabled s' → spatialHash s = spatialHash s' →
  handForces s = handForces s' → s = s'.
Proof. destruct s, s'. cbn. congruence. Qed.

Lemma substep_motion s s' :
  settings s = settings s' → spatialHash s = spatialHash s' →
  motion <$> particles s = motion <$> particles s' →
  substep s = substep s'.
Proof.
  intros Eset Esh Em.
  assert (Epos : position <$> particles s = position <$> particles s').
  { revert Em. apply (fmap_coarser motion (λ m, (m.1.1.1, m.1.1.2))). done. }
  pose proof (substep_particles s) as Hp.
  pose proof (substep_particles s') as Hp'.
  unfold settings in Eset. injection Eset as Ew Eh Eg Ege Ehf _.
  rewrite <- Esh, <- Ew, <- Eh, <- Eg, <- Ege, <- Ehf in Hp'.
  rewrite <- (rebuild_position _ _ _ Epos) in Hp'.
  rewrite <- (force_pass_kinematics _ _ _ _ _ _
                (density_pass_motion _ _ _ Em)) in Hp'.
  rewrite <- Hp in Hp'.
  apply simulation_eq; try done.
  rewrite !substep_spatialHash, Esh. by apply rebuild_position.
Qed.

(** X10: fx, fy, density and pressure are scratch fields: every substep
    assigns each of them before it reads it, so the state step leaves
    depends on the particles only through x, y, vx and vy. *)
Theorem step_ignores_scratch_fields (g : particle T → T * T * T * T) s :
  step (overwrite_scratch g s) = step s.
Proof.
  rewrite !step_unfold. do 3 f_equal. apply substep_motion; [done..|].
  unfold overwrite_scratch. cbn [particles set_particles].
  rewrite <- list_fmap_compose. apply list_fmap_ext. intros i p _. cbn.
  by destruct (g p) as [[[??]?]?].
Qed.

Lemma substep_pressure s :
  Forall pressure_of_density (particles (substep s)).
Proof.
  rewrite substep_particles. apply Forall_lookup. intros i q Hq.
  rewrite list_lookup_fmap, force_pass_lookup, density_pass_lookup in Hq.
  destruct (particles s !! i) as [p|]; [|done].
  apply (inj Some) in Hq as <-.
  unfold pressure_of_density.
  set (p1 := density_body _ _ i p).
  set (p2 := force_body _ _ _ _ _ i p1).
  pose proof (integrate_particle_scratch (width s) (height s) DT p2) as E3.
  pose proof (force_body_kinematics_kept
    (rebuild (spatialHash s) (particles s))
    (if gravityEnabled s then (gravity s).1 else #0)
    (if gravityEnabled s then (gravity s).2 else #0)
    (handForces s)
    (for_each_particle (density_body (rebuild (spatialHash s) (particles s)))
       (particles s)) i p1) as E2.
  fold p2 in E2. unfold scratch in E3. unfold kinematics in E2.
  injection E3 as _ _ -> ->. injection E2 as _ _ _ _ -> ->. done.
Qed.

(** X11: after step every particle has pressure = GAS_CONSTANT *
    (density - REST_DENSITY), whatever the two fields held before. *)
Theorem step_pressure_follows_density s :
  Forall pressure_of_density (particles (step s)).
Proof. rewrite step_unfold. apply substep_pressure. Qed.

(** X12: the hash step leaves behind refers to particles of the store
    only: every bucket lists indices below the number of particles, none
    twice, and every particle of the store is in some bucket. *)
Theorem step_hash_indexes_particles s (k : Z) :
  Forall (λ i, i < getParticleCount (step s))
         (bucket (spatialHash (step s)) k) ∧
  NoDup (bucket (spatialHash (step s)) k) ∧
  Forall (λ i, ∃ k', i ∈ bucket (spatialHash (step s)) k')
         (seq 0 (getParticleCount (step s))).
Proof.
  rewrite step_unfold. set (s3 := substep (substep (substep s))).
  unfold getParticleCount. rewrite substep_length, substep_spatialHash.
  unfold bucket. setoid_rewrite rebuild_bucket. repeat split.
  - apply Forall_forall. intros i Hi.
    apply list_elem_of_filter in Hi as [_ Hi]. apply elem_of_seq in Hi. lia.
  - apply NoDup_filter, NoDup_seq.
  - apply Forall_forall. intros i Hi.
    exists (keyAt (spatialHash s3) (particles s3) i).
    apply list_elem_of_filter. done.
Qed.

End PassFrames.


(** ** The kernel, the walls and the pair forces in exact arithmetic *)

Section Physics.

Local Open Scope R_scope.
Local Abbreviation sqrt := R_sqrt.sqrt.

Lemma pair_r2_sym (pi pj : particle R) : pair_r2 pi pj = pair_r2 pj pi.
Proof. unfold pair_r2. real_ops. ring. Qed.

Lemma pair_r2_nonneg (pi pj : particle R) : 0 <= pair_r2 pi pj.
Proof.
  unfold pair_r2. real_ops.
  pose proof (Rle_0_sqr (p_x pj - p_x pi)) as Hx.
  pose proof (Rle_0_sqr (p_y pj - p_y pi)) as Hy.
  unfold Rsqr in Hx, Hy. lra.
Qed.

Lemma pair_r2_distance (pi pj : particle R) :
  distance (p_x pi) (p_y pi) (p_x pj) (p_y pj) = sqrt (pair_r2 pi pj).
Proof. unfold distance, pair_r2. real_ops. f_equal. ring. Qed.

Lemma sqrt_1225 : sqrt 1225 = 35.
Proof. replace 1225 with (35 * 35) by lra. apply sqrt_square. lra. Qed.

Lemma in_range_distance (pi pj : particle R) :
  pair_r2 pi pj < 1225 ↔ distance (p_x pi) (p_y pi) (p_x pj) (p_y pj) < 35.
Proof.
  rewrite pair_r2_distance. pose proof (pair_r2_nonneg pi pj) as Hr. split.
  - intros Hlt. rewrite <- sqrt_1225. apply sqrt_lt_1_alt. lra.
  - intros Hlt. by apply sqrt_lt_35.
Qed.

Lemma weight_pos_in_range (pi pj : particle R) :
  pair_r2 pi pj < 1225 → 0 < weight pi pj <= self_density.
Proof.
  intros Hlt. pose proof (pair_r2_nonneg pi pj) as Hr.
  unfold weight, self_density. real_ops. rewrite H2_real.
  rewrite (proj2 (ltb_true _ _)) by done.
  pose proof poly6_mass_pos as Hk. real_ops.
  set (k := PARTICLE_MASS * POLY6_COEFF) in *. clearbody k.
  set (d := 1225 - pair_r2 pi pj).
  assert (Hd : 0 < d <= 1225) by (unfold d; lra).
  clearbody d.
  assert (Hd2 : 0 < d * d <= 1225 * 1225) by nra.
  assert (Hd3 : 0 < d * d * d <= 1225 * 1225 * 1225) by nra.
  split; [|nra].
  rewrite !Rmult_assoc. apply Rmult_lt_0_compat; [done|]. lra.
Qed.

Lemma weight_out_of_range (pi pj : particle R) :
  1225 <= pair_r2 pi pj → weight pi pj = 0.
Proof.
  intros Hge. unfold weight. real_ops. rewrite H2_real.
  rewrite (proj2 (ltb_false _ _)) by done. done.
Qed.

(** X13: what a neighbor adds to a density in computeDensityPressure is
    the same for the two particles of the pair, is never negative, is at
    most the self-term PARTICLE_MASS * POLY6_COEFF * (H2)^3, and is zero
    exactly when the two particles are H or more apart. *)
Theorem density_kernel_profile (pi pj : particle R) (acc : R) :
  density_term pi pj acc - acc = density_term pj pi acc - acc ∧
  acc <= density_term pi pj acc <= acc + self_density ∧
  (density_term pi pj acc = acc ↔
   H <= distance (p_x pi) (p_y pi) (p_x pj) (p_y pj)).
Proof.
  rewrite !density_term_weight, H_real.
  pose proof self_density_pos as Hs.
  destruct (Rlt_dec (pair_r2 pi pj) 1225) as [Hlt|Hge].
  - pose proof (weight_pos_in_range pi pj Hlt) as Hw.
    pose proof Hlt as Hlt'. rewrite pair_r2_sym in Hlt'.
    pose proof (proj1 (in_range_distance pi pj) Hlt) as Hd.
    split; [|split; [lra|split; intros; lra]].
    unfold weight. rewrite <- (pair_r2_sym pi pj). done.
  - assert (Hge' : 1225 <= pair_r2 pi pj) by lra.
    rewrite (weight_out_of_range pi pj Hge').
    rewrite pair_r2_sym in Hge'. rewrite (weight_out_of_range pj pi Hge').
    split; [done|]. split; [lra|]. split; [intros _|intros; lra].
    destruct (Rle_dec 35 (distance (p_x pi) (p_y pi) (p_x pj) (p_y pj)))
      as [|Hn]; [done|].
    exfalso. apply Hge. apply in_range_distance. lra.
Qed.

Lemma DAMPING_real : DAMPING (T:=R) = - (1 / 2).
Proof.
  unfold DAMPING, dec. real_ops. change (10 ^ Z.of_nat 1)%Z with 10%Z. lra.
Qed.

Lemma PARTICLE_RADIUS_real : PARTICLE_RADIUS (T:=R) = 6.
Proof. reflexivity. Qed.

(** X14: the boundary tests of one axis never leave the coordinate above
    size - PARTICLE_RADIUS and never raise the speed: the velocity comes
    out unchanged, reversed and halved (one wall), or quartered (both
    walls, which takes a domain narrower than two radii).  A coordinate
    that is not beyond a wall is left alone, with its velocity. *)
Theorem collide_damps (size pos vel : R) :
  (collide size pos vel).1 <= size - PARTICLE_RADIUS ∧
  Rabs (collide size pos vel).2 <= Rabs vel ∧
  ((collide size pos vel).2 = vel ∨
   (collide size pos vel).2 = - vel / 2 ∨
   (collide size pos vel).2 = vel / 4 ∧ size < 2 * PARTICLE_RADIUS) ∧
  (pos < PARTICLE_RADIUS ∨ size - PARTICLE_RADIUS < pos ∨
   collide size pos vel = (pos, vel)).
Proof.
  unfold collide. real_ops. rewrite DAMPING_real, PARTICLE_RADIUS_real.
  assert (Hh : Rabs (- vel / 2) <= Rabs vel).
  { unfold Rabs. repeat destruct (Rcase_abs _); lra. }
  assert (Hq : Rabs (vel / 4) <= Rabs vel).
  { unfold Rabs. repeat destruct (Rcase_abs _); lra. }
  destruct (Exact.ltb pos 6) eqn:E1.
  - apply ltb_true in E1.
    destruct (Exact.ltb (size - 6) 6) eqn:E2; cbn [fst snd].
    + apply ltb_true in E2.
      replace (vel * - (1 / 2) * - (1 / 2)) with (vel / 4) by lra.
      split; [lra|]. split; [done|]. split; [|by left].
      right. right. split; [done|lra].
    + apply ltb_false in E2.
      replace (vel * - (1 / 2)) with (- vel / 2) by lra.
      split; [lra|]. split; [done|]. split; [|by left]. right. by left.
  - destruct (Exact.ltb (size - 6) pos) eqn:E2; cbn [fst snd].
    + apply ltb_true in E2.
      replace (vel * - (1 / 2)) with (- vel / 2) by lra.
      split; [lra|]. split; [done|]. split; [|right; by left].
      right. by left.
    + apply ltb_false in E2.
      split; [lra|]. split; [lra|]. split; [by left|]. right. by right.
Qed.

(** The pressure and viscosity force one particle of a pair receives from
    the other: (fpx + fvx, fpy + fvy) of computeForces for that pair. *)
Definition pair_force (pi pj : particle R) : R * R :=
  let '(fpx, fpy, fvx, fvy) := force_term pi pj (0, 0, 0, 0) in
  (fpx + fvx, fpy + fvy).

(** X15: two particles of equal density exert opposite pressure and
    viscosity forces on each other. *)
Theorem equal_density_forces_opposite (pi pj : particle R) :
  p_density pi = p_density pj →
  pair_force pi pj = (- (pair_force pj pi).1, - (pair_force pj pi).2).
Proof.
  intros Ed. unfold pair_force, force_term.
  fold (pair_r2 pi pj). fold (pair_r2 pj pi).
  rewrite (pair_r2_sym pj pi), Ed.
  destruct ((pair_r2 pi pj <? H2)%js && (pair_r2 pi pj >? EPS)%js).
  - cbn [fst snd]. real_ops. f_equal; unfold Rdiv; ring.
  - cbn [fst snd]. f_equal; lra.
Qed.

Lemma equal_density_forces_opposite_witness :
  pair_force (Particle 100 100 0 0 0 0 2 3) (Particle 110 100 1 0 0 0 2 5)
  = (- (pair_force (Particle 110 100 1 0 0 0 2 5)
                   (Particle 100 100 0 0 0 0 2 3)).1,
     - (pair_force (Particle 110 100 1 0 0 0 2 5)
                   (Particle 100 100 0 0 0 0 2 3)).2).
Proof.
  apply (equal_density_forces_opposite
           (Particle 100 100 0 0 0 0 2 3) (Particle 110 100 1 0 0 0 2 5)).
  reflexivity.
Defined.

End Physics.

Section HandRadius.

Local Open Scope js_scope.
#[local] Existing Instance float_number.

(** X16: the radius computeForces uses for a hand is never 0 and never
    NaN, so the quotient hDist / hRadius is never a division by zero; it is
    80 when the hand has no radius or a radius of 0, -0 or NaN, and the
    hand's own radius otherwise. *)
Theorem hand_radius_usable (x y vx vy : float) (radius : option float) :
  Float64.truthy (hand_radius (HandForce x y vx vy radius)) = true ∧
  hand_radius (HandForce x y vx vy radius)
  = match radius with
    | Some r => if (PrimFloat.is_zero r || PrimFloat.is_nan r)%bool
                then 80%float else r
    | None => 80%float
    end.
Proof.
  unfold hand_radius. cbn [h_radius].
  destruct radius as [r|]; [|split; reflexivity].
  change (num_truthy r) with (Float64.truthy r).
  unfold Float64.truthy.
  destruct (PrimFloat.is_zero r || PrimFloat.is_nan r)%bool eqn:E.
  - split; reflexivity.
  - cbn [negb]. split; [|done]. unfold Float64.truthy. rewrite E. done.
Qed.

End HandRadius.


(** ** Spawning particles *)

(** Math.cos and Math.sin, which spawnBlob alone uses. *)
Class JsTrig (T : Type) := {
  num_cos : T → T;
  num_sin : T → T;
}.

#[export] Instance real_trig : JsTrig R := {|
  num_cos := Rtrigo_def.cos;
  num_sin := Rtrigo_def.sin;
|}.

Section Spawn.

Context {T : Type} {number : JsNumber T} {trig : JsTrig T}.
Local Open Scope js_scope.

Implicit Types (s : SPHSimulation T) (p : particle T).

(** Math.random(): [random k] is the value of the call number [k]; the
    spawn functions take the number of calls made so far and return it
    with the simulation. *)
Variable random : nat → T.

(** this.particles.push(p) *)
Definition push s p : SPHSimulation T := set_particles s (particles s ++ [p]).

(** The particle of one iteration of spawnBlob, [n] calls of Math.random
    having been made before it. *)
Definition blob_particle (cx cy spread : T) (n : nat) : particle T :=
  let angle := random n * num_PI * #2 in
  let r := random (n + 1) * spread in
  let x := cx + num_cos angle * r in
  let y := cy + num_sin angle * r in
  let vx := (random (n + 2) - dec 5 1) * #50 in
  let vy := (random (n + 3) - dec 5 1) * #50 in
  createParticle x y vx vy.

Definition spawnBlob_body (cx cy spread : T) (st : SPHSimulation T * nat)
  : SPHSimulation T * nat :=
  (push st.1 (blob_particle cx cy spread st.2), (st.2 + 4)%nat).

(** spawnBlob(cx, cy, count = 200, spread = 80), for a count that is a
    natural number; [None] is an argument left out. *)
Definition spawnBlob s (n : nat) (cx cy : T) (count : option nat)
    (spread : option T) : SPHSimulation T * nat :=
  Nat.iter (default 200 count)
    (spawnBlob_body cx cy (default #80 spread)) (s, n).

(** The particle of one iteration of the inner loop of spawnGrid. *)
Definition grid_particle (startX startY spacing : T) (i j n : nat)
  : particle T :=
  let x := startX + #(Z.of_nat i) * spacing + (random n - dec 5 1) * #2 in
  let y := startY + #(Z.of_nat j) * spacing
           + (random (n + 1) - dec 5 1) * #2 in
  createParticle x y #0 #0.

Definition spawnGrid_body (startX startY spacing : T) (i : nat)
    (st : SPHSimulation T * nat) (j : nat) : SPHSimulation T * nat :=
  (push st.1 (grid_particle startX startY spacing i j st.2), (st.2 + 2)%nat).

(** spawnGrid(cx, cy, cols, rows, spacing = 10), for natural numbers of
    columns and rows. *)
Definition spawnGrid s (n : nat) (cx cy : T) (cols rows : nat)
    (spacing : option T) : SPHSimulation T * nat :=
  let spacing := default #10 spacing in
  let startX := cx - (#(Z.of_nat cols) * spacing) / #2 in
  let startY := cy - (#(Z.of_nat rows) * spacing) / #2 in
  foldl (λ st i, foldl (spawnGrid_body startX startY spacing i) st (seq 0 rows))
        (s, n) (seq 0 cols).

(** window.resetSim of the application, for a window of inner width [w]
    and inner height [h]. *)
Definition resetSim s (n : nat) (w h : T) : SPHSimulation T * nat :=
  spawnBlob (reset s) n (w * dec 5 1) (h * dec 3 1) (Some 300) (Some #100).

(** The particles spawnBlob creates. *)
Definition blob (cx cy spread : T) (n count : nat) : list (particle T) :=
  (λ k, blob_particle cx cy spread (n + 4 * k)) <$> seq 0 count.

(** The particles spawnGrid creates in column [i]. *)
Definition grid_column (startX startY spacing : T) (rows n i : nat)
  : list (particle T) :=
  (λ j, grid_particle startX startY spacing i j (n + 2 * (i * rows + j)))
    <$> seq 0 rows.

Local Close Scope js_scope.

Lemma set_particles_id s : set_particles s (particles s) = s.
Proof. by destruct s. Qed.

Lemma spawnBlob_iter s n cx cy spread count :
  Nat.iter count (spawnBlob_body cx cy spread) (s, n)
  = (set_particles s (particles s ++ blob cx cy spread n count),
     (n + 4 * count)%nat).
Proof.
  induction count as [|c IH].
  - cbn. rewrite app_nil_r, set_particles_id. f_equal. lia.
  - cbn [Nat.iter nat_rect]. change (nat_rect _ _ _ c) with
      (Nat.iter c (spawnBlob_body cx cy spread) (s, n)).
    rewrite IH. unfold spawnBlob_body, push, blob. cbn [fst snd].
    rewrite seq_S, fmap_app. cbn [fmap list_fmap Nat.add].
    unfold set_particles. cbn [particles width height gravity gravityEnabled
      spatialHash handForces]. rewrite <- app_assoc. f_equal. lia.
Qed.

Lemma spawnGrid_column s m startX startY spacing i k :
  foldl (spawnGrid_body startX startY spacing i) (s, m) (seq 0 k)
  = (set_particles s
       (particles s ++
        ((λ j, grid_particle startX startY spacing i j (m + 2 * j))
           <$> seq 0 k)),
     (m + 2 * k)%nat).
Proof.
  induction k as [|k IH].
  - cbn. rewrite app_nil_r, set_particles_id. f_equal. lia.
  - rewrite seq_S, foldl_app, IH. cbn [foldl Nat.add].
    unfold spawnGrid_body, push. cbn [fst snd].
    rewrite fmap_app. cbn [fmap list_fmap].
    unfold set_particles. cbn [particles width height gravity gravityEnabled
      spatialHash handForces]. rewrite <- app_assoc. f_equal. lia.
Qed.

Lemma spawnGrid_columns s n startX startY spacing rows c :
  foldl (λ st i, foldl (spawnGrid_body startX startY spacing i) st (seq 0 rows))
        (s, n) (seq 0 c)
  = (set_particles s
       (particles s ++
        flat_map (grid_column startX startY spacing rows n) (seq 0 c)),
     (n + 2 * (c * rows))%nat).
Proof.
  induction c as [|c IH].
  - cbn. rewrite app_nil_r, set_particles_id. f_equal. lia.
  - rewrite seq_S, foldl_app, IH. cbn [foldl Nat.add].
    rewrite spawnGrid_column.
    rewrite flat_map_app. cbn [flat_map]. rewrite app_nil_r.
    unfold set_particles. cbn [particles width height gravity gravityEnabled
      spatialHash handForces]. rewrite <- app_assoc. f_equal; [|lia].
    do 3 f_equal. unfold grid_column. apply list_fmap_ext. intros ? j _.
    f_equal. lia.
Qed.

(** X17: spawnBlob keeps the particles the simulation holds, in place,
    and appends exactly [count] particles (200 when the count is left out)
    whose fx, fy, density and pressure are 0; it calls Math.random four
    times for each and changes neither the settings nor the hash. *)
Theorem spawnBlob_appends s (n : nat) (cx cy : T) (count : option nat)
    (spread : option T) :
  let s' := (spawnBlob s n cx cy count spread).1 in
  take (getParticleCount s) (particles s') = particles s ∧
  getParticleCount s' = (getParticleCount s + default 200 count)%nat ∧
  Forall (λ p, scratch p = (#0, #0, #0, #0)%js)
         (drop (getParticleCount s) (particles s')) ∧
  (spawnBlob s n cx cy count spread).2 = (n + 4 * default 200 count)%nat ∧
  settings s' = settings s ∧ spatialHash s' = spatialHash s.
Proof.
  unfold spawnBlob, getParticleCount. rewrite spawnBlob_iter.
  cbn [fst snd particles set_particles].
  rewrite take_app_length, drop_app_length, length_app.
  unfold blob. rewrite length_fmap, length_seq.
  repeat split. apply Forall_fmap, Forall_forall. done.
Qed.

Lemma grid_length startX startY spacing rows n c :
  length (flat_map (grid_column startX startY spacing rows n) (seq 0 c))
  = (c * rows)%nat.
Proof.
  induction c as [|c IH]; [done|].
  rewrite seq_S, flat_map_app, length_app, IH. cbn [flat_map Nat.add].
  rewrite app_nil_r. unfold grid_column. rewrite length_fmap, length_seq. lia.
Qed.

Lemma grid_lookup startX startY spacing rows n c i j :
  i < c → j < rows →
  flat_map (grid_column startX startY spacing rows n) (seq 0 c)
    !! (i * rows + j)
  = Some (grid_particle startX startY spacing i j (n + 2 * (i * rows + j))).
Proof.
  intros Hi Hj. induction c as [|c IH]; [lia|].
  rewrite seq_S, flat_map_app. cbn [flat_map Nat.add]. rewrite app_nil_r.
  destruct (decide (i = c)) as [->|Hne].
  - rewrite lookup_app_r; rewrite grid_length; [|lia].
    replace (c * rows + j - c * rows)%nat with j by lia.
    unfold grid_column. rewrite list_lookup_fmap, lookup_seq_lt by done. done.
  - rewrite lookup_app_l; [apply IH; lia|]. rewrite grid_length. nia.
Qed.

End Spawn.


Section SpawnReal.

Local Open Scope R_scope.
Local Abbreviation sqrt := R_sqrt.sqrt.

(** Math.random returns numbers of [0, 1). *)
Variable random : nat → R.
Hypothesis random_unit : ∀ k, 0 <= random k < 1.

(** Where spawnBlob puts a particle and how fast it lets it move. *)
Definition in_blob (cx cy spread : R) (p : particle R) : Prop :=
  distance (p_x p) (p_y p) cx cy <= Rabs spread ∧
  -25 <= p_vx p < 25 ∧ -25 <= p_vy p < 25.

Lemma half_real : dec (T:=R) 5 1 = 1 / 2.
Proof.
  unfold dec. real_ops. change (10 ^ Z.of_nat 1)%Z with 10%Z. lra.
Qed.

Lemma blob_particle_in_blob (cx cy spread : R) (n : nat) :
  in_blob cx cy spread (blob_particle random cx cy spread n).
Proof using random_unit.
  unfold in_blob, blob_particle, createParticle.
  cbn [p_x p_y p_vx p_vy]. rewrite half_real. real_ops.
  change (@num_cos R real_trig) with cos.
  change (@num_sin R real_trig) with sin.
  pose proof (random_unit (n + 1)) as Hr.
  pose proof (random_unit (n + 2)) as Hvx.
  pose proof (random_unit (n + 3)) as Hvy.
  split; [|lra].
  set (a := random n * Rtrigo1.PI * 2). set (r := random (n + 1) * spread).
  unfold distance.
  replace ((cx + cos a * r - cx) * (cx + cos a * r - cx)
           + (cy + sin a * r - cy) * (cy + sin a * r - cy))
    with (Rsqr r * (Rsqr (sin a) + Rsqr (cos a))) by (unfold Rsqr; ring).
  rewrite sin2_cos2, Rmult_1_r, sqrt_Rsqr_abs. unfold r.
  rewrite Rabs_mult, (Rabs_pos_eq (random (n + 1))) by lra.
  pose proof (Rabs_pos spread). nra.
Qed.

Lemma blob_in_blob (cx cy spread : R) (n count : nat) :
  Forall (in_blob cx cy spread) (blob random cx cy spread n count).
Proof using random_unit.
  unfold blob. apply Forall_fmap, Forall_forall. intros k _.
  apply blob_particle_in_blob.
Qed.

(** X18: when Math.random returns numbers of [0, 1), every particle
    spawnBlob adds lies within the distance |spread| of the centre (cx, cy),
    and each component of its velocity is in [-25, 25). *)
Theorem spawnBlob_within_spread (s : SPHSimulation R) (n : nat) (cx cy : R)
    (count : option nat) (spread : option R) :
  Forall (in_blob cx cy (default 80 spread))
    (drop (getParticleCount s)
       (particles (spawnBlob random s n cx cy count spread).1)).
Proof using random_unit.
  unfold spawnBlob, getParticleCount. rewrite spawnBlob_iter.
  cbn [fst particles set_particles]. rewrite drop_app_length.
  apply blob_in_blob.
Qed.

(** X19: spawnGrid keeps the particles the simulation holds and appends
    cols * rows particles at rest, column after column; when Math.random
    returns numbers of [0, 1), the particle of column i and row j is, on
    each axis, at most 1 away from the lattice point
    (cx + (i - cols / 2) * spacing, cy + (j - rows / 2) * spacing). *)
Theorem spawnGrid_lattice (s : SPHSimulation R) (n : nat) (cx cy : R)
    (cols rows : nat) (spacing : option R) (i j : nat) :
  (i < cols)%nat → (j < rows)%nat →
  let s' := (spawnGrid random s n cx cy cols rows spacing).1 in
  take (getParticleCount s) (particles s') = particles s ∧
  getParticleCount s' = (getParticleCount s + cols * rows)%nat ∧
  ∃ p, particles s' !! (getParticleCount s + (i * rows + j))%nat = Some p ∧
       Rabs (p_x p - (cx + (INR i - INR cols / 2) * default 10 spacing)) <= 1 ∧
       Rabs (p_y p - (cy + (INR j - INR rows / 2) * default 10 spacing)) <= 1 ∧
       p_vx p = 0 ∧ p_vy p = 0.
Proof using random_unit.
  intros Hi Hj. unfold spawnGrid, getParticleCount. cbv zeta.
  rewrite spawnGrid_columns. cbn [fst particles set_particles].
  rewrite take_app_length, length_app, grid_length.
  split; [done|]. split; [done|].
  rewrite lookup_app_r by lia.
  replace (length (particles s) + (i * rows + j) - length (particles s))%nat
    with (i * rows + j)%nat by lia.
  rewrite grid_lookup by done. eexists. split; [done|].
  unfold grid_particle, createParticle. cbn [p_x p_y p_vx p_vy].
  rewrite half_real. real_ops. rewrite <- !INR_IZR_INZ.
  set (m := (n + 2 * (i * rows + j))%nat).
  pose proof (random_unit m) as Hx. pose proof (random_unit (m + 1)) as Hy.
  change (@num_of_Z R real_number 10) with 10.
  repeat split; try done; apply Rabs_le; lra.
Qed.

(** X20: whatever the simulation held, after resetSim it holds exactly
    300 particles, all within the distance 100 of the point (w / 2,
    3 h / 10), when Math.random returns numbers of [0, 1). *)
Theorem resetSim_refills (s : SPHSimulation R) (n : nat) (w h : R) :
  getParticleCount (resetSim random s n w h).1 = 300%nat ∧
  Forall (in_blob (w / 2) (3 * h / 10) 100)
         (particles (resetSim random s n w h).1).
Proof using random_unit.
  unfold resetSim, spawnBlob, getParticleCount. rewrite spawnBlob_iter.
  cbn [fst particles set_particles reset default app].
  split; [unfold blob; rewrite length_fmap, length_seq; done|].
  replace (w / 2) with (w * dec 5 1)%js by (rewrite half_real; real_ops; lra).
  replace (3 * h / 10) with (h * dec 3 1)%js.
  2:{ unfold dec. real_ops. change (10 ^ Z.of_nat 1)%Z with 10%Z. lra. }
  apply blob_in_blob.
Qed.

End SpawnReal.

Section SpawnSamples.

Local Open Scope R_scope.

(** An empty simulation in a window of 800 by 600. *)
Definition empty_window : SPHSimulation R := new_SPHSimulation 800 600.

Lemma spawnBlob_within_spread_witness :
  Forall (in_blob 400 300 (default 80 None))
    (drop (getParticleCount empty_window)
       (particles (spawnBlob (λ k, if Nat.even k then 1 / 4 else 3 / 4)
                     empty_window
                     0 400 300 (Some 3%nat) None).1)).
Proof.
  refine (spawnBlob_within_spread (λ k, if Nat.even k then 1 / 4 else 3 / 4) _
            empty_window 0 400 300 (Some 3%nat) None).
  intros k. cbv beta. destruct (Nat.even k); lra.
Defined.

Lemma spawnGrid_lattice_witness :
  let s' := (spawnGrid (λ _, 1 / 4) empty_window 0 400 300
               3 2 None).1 in
  take (getParticleCount empty_window) (particles s')
  = particles empty_window ∧
  getParticleCount s' = (getParticleCount empty_window + 3 * 2)%nat ∧
  ∃ p, particles s' !! (getParticleCount empty_window
                         + (2 * 2 + 1))%nat = Some p ∧
       Rabs (p_x p - (400 + (INR 2 - INR 3 / 2) * default 10 None)) <= 1 ∧
       Rabs (p_y p - (300 + (INR 1 - INR 2 / 2) * default 10 None)) <= 1 ∧
       p_vx p = 0 ∧ p_vy p = 0.
Proof.
  apply (spawnGrid_lattice (λ _, 1 / 4)); [intros; lra | lia | lia].
Defined.

Lemma resetSim_refills_witness :
  getParticleCount
    (resetSim (λ _, 1 / 2) empty_window 7 800 600).1 = 300%nat ∧
  Forall (in_blob (800 / 2) (3 * 600 / 10) 100)
         (particles
            (resetSim (λ _, 1 / 2) empty_window 7 800 600).1).
Proof.
  apply (resetSim_refills (λ _, 1 / 2)). intros; lra.
Defined.

End SpawnSamples.


(** ** The hand tracker: from landmarks to hand forces *)

Section HandTracker.

Context {T : Type} {number : JsNumber T}.
Local Open Scope js_scope.

(** A landmark {x, y} of MediaPipe, in normalized coordinates. *)
Record landmark := Landmark {
  lm_x : T;
  lm_y : T;
}.

(** An entry {x, y, t, vx, vy} of prevPositions. *)
Record prev_position := PrevPosition {
  prev_x : T; prev_y : T;
  prev_t : T;
  prev_vx : T; prev_vy : T;
}.

(** An entry {idx, radius, weight} of interactionPoints. *)
Record interaction_point := InteractionPoint {
  ip_idx : nat;
  ip_radius : T;
  ip_weight : T;
}.

Definition interactionPoints : list interaction_point :=
  [ InteractionPoint 9 #70 #1;            (* palm center *)
    InteractionPoint 8 #40 (dec 7 1);     (* index fingertip *)
    InteractionPoint 12 #40 (dec 6 1);    (* middle fingertip *)
    InteractionPoint 4 #35 (dec 5 1);     (* thumb tip *)
    InteractionPoint 20 #35 (dec 4 1) ].  (* pinky tip *)

(** The fields of HandTracker that computeHandForces and onResults use.
    A key [`${hi}_${point.idx}`] of prevPositions is modelled as the pair
    (hi, point.idx), which the string determines. *)
Record HandTracker := MkTracker {
  t_landmarks : list (list landmark);
  t_handForces : list (hand_force T);
  t_prevPositions : gmap (nat * nat) prev_position;
  t_canvasWidth : T;
  t_canvasHeight : T;
}.

Definition new_HandTracker : HandTracker := MkTracker [] [] ∅ #0 #0.

(** resize(width, height) *)
Definition tracker_resize (tr : HandTracker) (w h : T) : HandTracker :=
  MkTracker (t_landmarks tr) (t_handForces tr) (t_prevPositions tr) w h.

(** The velocity of a point seen at (x, y) at the time [now]. *)
Definition tracked_velocity (now x y : T) (prev : option prev_position)
  : T * T :=
  match prev with
  | Some prev =>
      let dt := (now - prev_t prev) / #1000 in
      if (dt >? #0) && (dt <? dec 2 1) then
        let vx := (x - prev_x prev) / dt in
        let vy := (y - prev_y prev) / dt in
        (* Smooth velocity *)
        (prev_vx prev * dec 5 1 + vx * dec 5 1,
         prev_vy prev * dec 5 1 + vy * dec 5 1)
      else (#0, #0)
  | None => (#0, #0)
  end.

(** One iteration of the loop over interactionPoints, for the hand of
    index [hi]; the state is the array forces and the Map prevPositions. *)
Definition track_point (now w h : T) (hi : nat) (hand : list landmark)
    (st : list (hand_force T) * gmap (nat * nat) prev_position)
    (point : interaction_point)
  : list (hand_force T) * gmap (nat * nat) prev_position :=
  match hand !! ip_idx point with
  | None => st                                   (* if (!lm) continue *)
  | Some lm =>
      let x := (#1 - lm_x lm) * w in
      let y := lm_y lm * h in
      let key := (hi, ip_idx point) in
      let '(vx, vy) := tracked_velocity now x y (st.2 !! key) in
      (st.1 ++ [HandForce x y (vx * ip_weight point) (vy * ip_weight point)
                  (Some (ip_radius point))],
       <[key := PrevPosition x y now vx vy]> st.2)
  end.

Definition track_hand (now w h : T) (hands : list (list landmark))
    (st : list (hand_force T) * gmap (nat * nat) prev_position) (hi : nat)
  : list (hand_force T) * gmap (nat * nat) prev_position :=
  match hands !! hi with
  | Some hand => foldl (track_point now w h hi hand) st interactionPoints
  | None => st
  end.

(** computeHandForces(), [now] being the value of performance.now(). *)
Definition computeHandForces (tr : HandTracker) (now : T) : HandTracker :=
  let w := t_canvasWidth tr in
  let h := t_canvasHeight tr in
  let st := foldl (track_hand now w h (t_landmarks tr))
                  ([], t_prevPositions tr)
                  (seq 0 (length (t_landmarks tr))) in
  MkTracker (t_landmarks tr) st.1 st.2 w h.

(** onResults(results); [None] is a results object without
    multiHandLandmarks. *)
Definition onResults (tr : HandTracker)
    (multiHandLandmarks : option (list (list landmark))) (now : T)
  : HandTracker :=
  match multiHandLandmarks with
  | Some (hand :: hands) =>
      computeHandForces
        (MkTracker (hand :: hands) (t_handForces tr) (t_prevPositions tr)
           (t_canvasWidth tr) (t_canvasHeight tr)) now
  | _ =>
      MkTracker [] [] (t_prevPositions tr)
        (t_canvasWidth tr) (t_canvasHeight tr)
  end.

Local Close Scope js_scope.

Implicit Types (st : list (hand_force T) * gmap (nat * nat) prev_position).

(** An invariant of the state of the two loops is one that every
    iteration on a landmark keeps. *)
Lemma tracking_invariant
    (Inv : list (hand_force T) * gmap (nat * nat) prev_position → Prop)
    (now w h : T) (hands : list (list landmark)) st (his : list nat) :
  (∀ st hi hand point lm,
     hands !! hi = Some hand → point ∈ interactionPoints →
     hand !! ip_idx point = Some lm →
     Inv st → Inv (track_point now w h hi hand st point)) →
  Inv st → Inv (foldl (track_hand now w h hands) st his).
Proof.
  intros Hstep. revert st.
  induction his as [|hi his IH]; intros st Hst; [done|].
  cbn [foldl]. apply IH. unfold track_hand.
  destruct (hands !! hi) as [hand|] eqn:Hhand; [|done].
  assert (Hsub : ∀ pts, pts ⊆ interactionPoints →
            Inv (foldl (track_point now w h hi hand) st pts)).
  { intros pts. revert st Hst. induction pts as [|pt pts IHp];
      intros st Hst Hpts; [done|].
    cbn [foldl]. apply IHp.
    - destruct (hand !! ip_idx pt) as [lm|] eqn:Hlm.
      + apply (Hstep st hi hand pt lm); try done.
        apply Hpts. by left.
      + unfold track_point. rewrite Hlm. done.
    - intros q Hq. apply Hpts. by right. }
  by apply Hsub.
Qed.

Lemma track_point_forces (now w h : T) hi hand st point lm :
  hand !! ip_idx point = Some lm →
  ∃ vx vy,
    (vx, vy) = tracked_velocity now ((num_of_Z 1 - lm_x lm) * w)%js
                 (lm_y lm * h)%js (st.2 !! (hi, ip_idx point)) ∧
    track_point now w h hi hand st point
    = (st.1 ++ [HandForce ((num_of_Z 1 - lm_x lm) * w)%js (lm_y lm * h)%js
                  (vx * ip_weight point)%js (vy * ip_weight point)%js
                  (Some (ip_radius point))],
       <[(hi, ip_idx point) :=
           PrevPosition ((num_of_Z 1 - lm_x lm) * w)%js (lm_y lm * h)%js
             now vx vy]> st.2).
Proof.
  intros Hlm. unfold track_point. rewrite Hlm.
  destruct (tracked_velocity _ _ _ _) as [vx vy]. by exists vx, vy.
Qed.

Lemma computeHandForces_radii (tr : HandTracker) (now : T) :
  Forall (λ f, h_radius f ∈ [Some (num_of_Z 70); Some (num_of_Z 40);
                             Some (num_of_Z 35)])
         (t_handForces (computeHandForces tr now)).
Proof.
  unfold computeHandForces. cbn [t_handForces].
  apply (tracking_invariant
           (λ st, Forall (λ f, h_radius f ∈ [Some (num_of_Z 70);
                                  Some (num_of_Z 40); Some (num_of_Z 35)])
                    st.1)); [|done].
  intros st hi hand point lm _ Hpt Hlm Hst.
  destruct (track_point_forces now (t_canvasWidth tr) (t_canvasHeight tr)
              hi hand st point lm Hlm) as (vx & vy & _ & ->).
  cbn [fst]. apply Forall_app. split; [done|].
  apply Forall_singleton. cbn [h_radius].
  unfold interactionPoints in Hpt.
  rewrite !elem_of_cons in Hpt.
  destruct Hpt as [->|[->|[->|[->|[->|Hpt]]]]]; cbn [ip_radius];
    rewrite ?elem_of_cons; auto.
  by apply elem_of_nil in Hpt.
Qed.

(** X21: computeHandForces makes at most five forces for each hand, and
    each has one of the radii 70, 40 and 35 of the interaction points; when
    the results hold no hand, onResults leaves no force and no landmark,
    and keeps the recorded positions. *)
Theorem tracker_forces_bounded (tr : HandTracker) (now : T) :
  length (t_handForces (computeHandForces tr now))
    ≤ 5 * length (t_landmarks tr) ∧
  Forall (λ f, h_radius f ∈ [Some (num_of_Z 70); Some (num_of_Z 40);
                             Some (num_of_Z 35)])
         (t_handForces (computeHandForces tr now)) ∧
  onResults tr None now
    = MkTracker [] [] (t_prevPositions tr) (t_canvasWidth tr)
        (t_canvasHeight tr) ∧
  onResults tr (Some []) now = onResults tr None now.
Proof.
  split; [|split; [|done]].
  - unfold computeHandForces. cbn [t_handForces].
    assert (Hgen : ∀ his st,
      length (foldl (track_hand now (t_canvasWidth tr) (t_canvasHeight tr)
                       (t_landmarks tr)) st his).1
      ≤ length st.1 + 5 * length his).
    { induction his as [|hi his IH]; intros st; [cbn; lia|].
      cbn [foldl length]. etrans; [apply IH|].
      assert (length (track_hand now (t_canvasWidth tr) (t_canvasHeight tr)
                        (t_landmarks tr) st hi).1 ≤ length st.1 + 5); [|lia].
      unfold track_hand. destruct (t_landmarks tr !! hi) as [hand|]; [|lia].
      assert (Hone : ∀ st pt,
        length (track_point now (t_canvasWidth tr) (t_canvasHeight tr) hi hand
                  st pt).1 ≤ length st.1 + 1).
      { intros st' pt. unfold track_point.
        destruct (hand !! ip_idx pt); [|lia].
        destruct (tracked_velocity _ _ _ _). cbn [fst].
        rewrite length_app. cbn. lia. }
      assert (Hall : ∀ pts st,
        length (foldl (track_point now (t_canvasWidth tr) (t_canvasHeight tr)
                         hi hand) st pts).1 ≤ length st.1 + length pts).
      { induction pts as [|pt pts IHp]; intros st'; [cbn; lia|].
        cbn [foldl length]. etrans; [apply IHp|].
        pose proof (Hone st' pt). lia. }
      apply (Hall interactionPoints). }
    etrans; [apply Hgen|]. rewrite length_seq. cbn. lia.
  - apply computeHandForces_radii.
Qed.

End HandTracker.

Arguments landmark T : clear implicits.
Arguments prev_position T : clear implicits.
Arguments interaction_point T : clear implicits.
Arguments HandTracker T : clear implicits.


Section TrackerOnDoubles.

#[local] Existing Instance float_number.

(** X22: for every force the tracker makes, the radius computeForces
    uses is the radius of the interaction point, 70, 40 or 35, never the
    default 80. *)
Theorem tracker_radius_is_used (tr : HandTracker float) (now : float) :
  Forall (λ f, h_radius f = Some (hand_radius f) ∧
               hand_radius f ∈ [70; 40; 35]%float)
         (t_handForces (computeHandForces tr now)).
Proof.
  eapply Forall_impl; [apply computeHandForces_radii|].
  intros [x y vx vy r]. unfold hand_radius. cbn [h_radius].
  rewrite !elem_of_cons. intros [->|[->|[->|Hr]]].
  - split; [reflexivity|]. left. reflexivity.
  - split; [reflexivity|]. right. left. reflexivity.
  - split; [reflexivity|]. right. right. left. reflexivity.
  - by apply elem_of_nil in Hr.
Qed.

End TrackerOnDoubles.

Section TrackerReal.

Local Open Scope R_scope.

(** A recorded position that gives no velocity at the time [now]: it was
    recorded at [now] or later, or 200 ms or more before. *)
Definition stale (now : R) (prev : prev_position R) : Prop :=
  now <= prev_t prev ∨ prev_t prev + 200 <= now.

Lemma fifth_real : dec (T:=R) 2 1 = 1 / 5.
Proof.
  unfold dec. real_ops. change (10 ^ Z.of_nat 1)%Z with 10%Z. lra.
Qed.

Lemma tracked_velocity_stale (now x y : R) (prev : option (prev_position R)) :
  from_option (stale now) True prev → tracked_velocity now x y prev = (0, 0).
Proof.
  destruct prev as [prev|]; [|done]. cbn [from_option]. intros Hs.
  unfold tracked_velocity. rewrite fifth_real. real_ops.
  destruct (Exact.ltb 0 ((now - prev_t prev) / 1000)) eqn:E1; [|done].
  destruct (Exact.ltb ((now - prev_t prev) / 1000) (1 / 5)) eqn:E2; [|done].
  apply ltb_true in E1, E2. destruct Hs; lra.
Qed.

(** X23: a point gets the velocity 0 unless its previous position was
    recorded less than 200 ms before: the forces computeHandForces makes
    have no velocity when every recorded position is that old (or the Map is
    empty, as on the first results), and the positions it records are of
    that kind for a second call at the same time. *)
Theorem stale_positions_give_no_velocity (tr : HandTracker R) (now : R) :
  map_Forall (λ _, stale now) (t_prevPositions tr) →
  Forall (λ f, h_vx f = 0 ∧ h_vy f = 0)
         (t_handForces (computeHandForces tr now)) ∧
  map_Forall (λ _, stale now) (t_prevPositions (computeHandForces tr now)).
Proof.
  intros Hold. unfold computeHandForces. cbn [t_handForces t_prevPositions].
  apply (tracking_invariant
           (λ st, Forall (λ f, h_vx f = 0 ∧ h_vy f = 0) st.1 ∧
                  map_Forall (λ _, stale now) st.2)); [|done].
  intros st hi hand point lm _ _ Hlm [Hf Hm].
  destruct (track_point_forces now (t_canvasWidth tr) (t_canvasHeight tr)
              hi hand st point lm Hlm) as (vx & vy & Hv & ->).
  rewrite tracked_velocity_stale in Hv.
  2:{ destruct (st.2 !! (hi, ip_idx point)) as [prev|] eqn:Hp; [|done].
      apply (Hm _ _ Hp). }
  injection Hv as -> ->. cbn [fst snd]. split.
  - apply Forall_app. split; [done|]. apply Forall_singleton.
    cbn [h_vx h_vy]. real_ops. lra.
  - apply map_Forall_insert_2; [|done]. left. cbn [prev_t]. lra.
Qed.



(** A tracker on a canvas of 800 by 600 that sees one hand for the first
    time; three of the five interaction points are among its landmarks. *)
Definition first_sighting : HandTracker R :=
  MkTracker
    [ [Landmark (1 / 2) (1 / 2); Landmark 0 0; Landmark 1 1;
       Landmark (1 / 4) (3 / 4); Landmark (1 / 2) (1 / 4);
       Landmark (1 / 2) (1 / 4); Landmark (1 / 2) (1 / 4);
       Landmark (1 / 2) (1 / 4); Landmark (1 / 5) (4 / 5);
       Landmark (3 / 10) (7 / 10)] ]
    (t_handForces new_HandTracker) (t_prevPositions new_HandTracker)
    800 600.

Lemma stale_positions_give_no_velocity_witness :
  Forall (λ f, h_vx f = 0 ∧ h_vy f = 0)
         (t_handForces (computeHandForces first_sighting 1000)) ∧
  map_Forall (λ _, stale 1000)
             (t_prevPositions (computeHandForces first_sighting 1000)).
Proof.
  apply (stale_positions_give_no_velocity first_sighting 1000).
  apply map_Forall_empty.
Defined.


End TrackerReal.


(** ** The renderer: colour schemes and the threshold of the metaball field *)

Section Renderer.

Local Open Scope Z_scope.

(** An entry {name, inner, outer, glow} of COLOR_SCHEMES. *)
Record color_scheme := ColorScheme {
  cs_name : string;
  cs_inner : Z * Z * Z;
  cs_outer : Z * Z * Z;
  cs_glow : Z * Z * Z;
}.

Definition COLOR_SCHEMES : list color_scheme :=
  [ ColorScheme "Blue" (30, 144, 255) (0, 60, 180) (100, 180, 255);
    ColorScheme "Cyan" (0, 230, 230) (0, 100, 140) (100, 255, 255);
    ColorScheme "Lava" (255, 100, 20) (180, 30, 0) (255, 180, 60);
    ColorScheme "Green" (30, 220, 80) (0, 120, 40) (100, 255, 140);
    ColorScheme "Purple" (180, 60, 255) (80, 20, 160) (200, 140, 255) ].

(** The fields colorIndex and scheme of WaterRenderer; [None] is
    undefined, the value of an index outside COLOR_SCHEMES. *)
Record WaterRenderer := MkRenderer {
  colorIndex : nat;
  scheme : option color_scheme;
}.

Definition new_WaterRenderer : WaterRenderer :=
  MkRenderer 0 (COLOR_SCHEMES !! 0%nat).

(** cycleColor(): the renderer it leaves and the name it returns; reading
    the name of an undefined scheme throws, which is [None]. *)
Definition cycleColor (r : WaterRenderer) : WaterRenderer * option string :=
  let colorIndex := ((colorIndex r + 1) mod length COLOR_SCHEMES)%nat in
  let scheme := COLOR_SCHEMES !! colorIndex in
  (MkRenderer colorIndex scheme, cs_name <$> scheme).

(** getColorName() *)
Definition getColorName (r : WaterRenderer) : option string :=
  cs_name <$> scheme r.

Local Open Scope js_scope.
#[local] Existing Instance float_number.

(** Math.min of two doubles. *)
Definition Math_min (a b : float) : float :=
  if (PrimFloat.is_nan a || PrimFloat.is_nan b)%bool then PrimFloat.nan
  else if a <? b then a
  else if b <? a then b
  else if PrimFloat.get_sign a then a else b.

(** The conversion of a Number stored in a Uint8ClampedArray: NaN is 0,
    the others are clamped to [0, 255] and rounded to the nearest integer,
    halves to the even one. *)
Definition toUint8Clamp (x : float) : Z :=
  if PrimFloat.is_nan x then 0
  else if PrimFloat.leb x #0 then 0
  else if PrimFloat.leb #255 x then 255
  else
    let f := Float64.floor x in
    let z := Float64.trunc f in
    if f + dec 5 1 <? x then z + 1
    else if x <? f + dec 5 1 then z
    else if Z.even z then z else z + 1.

(** The body of the loop of render over the pixels of the offscreen
    buffer, on the four bytes (R, G, B, A) of one pixel. *)
Definition threshold_pixel (sch : color_scheme) (px : Z * Z * Z * Z)
  : Z * Z * Z * Z :=
  let '(r, g, b, a) := px in
  let '(ir, ig, ib) := cs_inner sch in
  let '(or_, og, ob) := cs_outer sch in
  let threshold := dec 35 2 in
  let alpha := #a / #255 in
  if alpha >? threshold then
    let t := Math_min ((alpha - threshold) / (#1 - threshold)) #1 in
    let t2 := t * t in
    (toUint8Clamp (Float64.floor (#or_ + (#ir - #or_) * t2)),
     toUint8Clamp (Float64.floor (#og + (#ig - #og) * t2)),
     toUint8Clamp (Float64.floor (#ob + (#ib - #ob) * t2)),
     toUint8Clamp (Float64.floor (#180 + #75 * t)))
  else (r, g, b, 0).

Local Close Scope js_scope.

Lemma cycle_index (n : nat) :
  colorIndex (Nat.iter n (λ r, (cycleColor r).1) new_WaterRenderer)
  = (n mod 5)%nat.
Proof.
  induction n as [|n IH]; [done|].
  cbn [Nat.iter nat_rect]. change (nat_rect _ _ _ n) with
    (Nat.iter n (λ r, (cycleColor r).1) new_WaterRenderer).
  unfold cycleColor at 1. cbn [fst colorIndex]. rewrite IH.
  change (length COLOR_SCHEMES) with 5%nat.
  replace (S n) with (n + 1)%nat by lia.
  rewrite (Nat.Div0.add_mod n 1 5). done.
Qed.

(** X25: however often cycleColor has been called since the renderer was
    made, colorIndex is the number of calls modulo 5, scheme is the entry of
    COLOR_SCHEMES with that index and never undefined, and the next call
    returns the name of the following scheme; five calls bring the renderer
    back to where it was. *)
Theorem cycleColor_cycles (n : nat) :
  let r := Nat.iter n (λ r, (cycleColor r).1) new_WaterRenderer in
  colorIndex r = (n mod 5)%nat ∧
  scheme r = COLOR_SCHEMES !! colorIndex r ∧
  is_Some (scheme r) ∧
  (cycleColor r).2 = cs_name <$> COLOR_SCHEMES !! (S n mod 5)%nat ∧
  is_Some (cycleColor r).2 ∧
  Nat.iter 5 (λ r, (cycleColor r).1) r = r.
Proof.
  cbv zeta. pose proof (cycle_index n) as Hn.
  pose proof (cycle_index (S n)) as HS.
  cbn [Nat.iter nat_rect] in HS. change (nat_rect _ _ _ n) with
    (Nat.iter n (λ r, (cycleColor r).1) new_WaterRenderer) in HS.
  set (r := Nat.iter n (λ r, (cycleColor r).1) new_WaterRenderer) in *.
  assert (Hs : scheme r = COLOR_SCHEMES !! colorIndex r).
  { unfold r. destruct n as [|m]; [done|]. done. }
  assert (Hlt : (colorIndex r < 5)%nat).
  { rewrite Hn. apply Nat.mod_upper_bound. lia. }
  split; [done|]. split; [done|].
  assert (Hnext : (cycleColor r).2
                  = cs_name <$> COLOR_SCHEMES !! (S n mod 5)%nat).
  { rewrite <- HS. done. }
  assert (HltS : (S n mod 5 < 5)%nat) by (apply Nat.mod_upper_bound; lia).
  rewrite Hnext, Hs. destruct r as [i sc]. cbn [colorIndex scheme] in *.
  subst sc.
  repeat split.
  - destruct i as [|[|[|[|[|i]]]]]; try lia; by eexists.
  - destruct (S n mod 5)%nat as [|[|[|[|[|k]]]]]; try lia; by eexists.
  - destruct i as [|[|[|[|[|i]]]]]; try lia; reflexivity.
Qed.

(** [alpha > threshold] for the alpha byte [a]. *)
Definition above_threshold (a : Z) : bool :=
  (num_of_Z a / num_of_Z 255 >? dec 35 2)%js.

Lemma threshold_pixel_alpha sch r g b a :
  threshold_pixel sch (r, g, b, a)
  = if above_threshold a then threshold_pixel sch (0, 0, 0, a)
    else (r, g, b, 0).
Proof.
  unfold threshold_pixel, above_threshold.
  destruct (cs_inner sch) as [[ir ig] ib], (cs_outer sch) as [[or_ og] ob].
  by destruct (num_ltb _ _).
Qed.

(** A byte between two bytes, whichever of them is the larger. *)
Definition between_bytes (lo hi v : Z) : Prop :=
  Z.min lo hi ≤ v ≤ Z.max lo hi.

(** A pixel that the threshold made water of the scheme [sch]. *)
Definition water_pixel (sch : color_scheme) (px : Z * Z * Z * Z) : Prop :=
  between_bytes (cs_outer sch).1.1 (cs_inner sch).1.1 px.1.1.1 ∧
  between_bytes (cs_outer sch).1.2 (cs_inner sch).1.2 px.1.1.2 ∧
  between_bytes (cs_outer sch).2 (cs_inner sch).2 px.1.2 ∧
  180 ≤ px.2 ≤ 255.

#[local] Instance between_bytes_dec lo hi v : Decision (between_bytes lo hi v).
Proof. unfold between_bytes. apply _. Defined.

#[local] Instance water_pixel_dec sch px : Decision (water_pixel sch px).
Proof. unfold water_pixel. apply _. Defined.

Definition threshold_checked (sch : color_scheme) (a : Z) : bool :=
  if above_threshold a
  then bool_decide (90 ≤ a) &&
       bool_decide (water_pixel sch (threshold_pixel sch (0, 0, 0, a)))
  else bool_decide (a < 90).

Lemma threshold_checked_all :
  forallb (λ sch, forallb (threshold_checked sch) (seqZ 0 256)) COLOR_SCHEMES
  = true.
Proof. vm_compute. reflexivity. Qed.

(** X26: under each of the five schemes the threshold turns a pixel whose
    alpha byte is below 90 transparent, leaving its colour bytes, and gives
    every other pixel an alpha between 180 and 255 and colour bytes between
    those of the outer and of the inner colour of the scheme (doubles, with
    the rounding of the source's divisions and products). *)
Theorem threshold_pixel_range (sch : color_scheme) (r g b a : Z) :
  sch ∈ COLOR_SCHEMES → 0 ≤ a ≤ 255 →
  if decide (a < 90) then threshold_pixel sch (r, g, b, a) = (r, g, b, 0)
  else water_pixel sch (threshold_pixel sch (r, g, b, a)).
Proof.
  intros Hsch Ha.
  pose proof threshold_checked_all as Hall.
  rewrite forallb_forall in Hall.
  specialize (Hall sch (proj1 (list_elem_of_In _ _) Hsch)).
  rewrite forallb_forall in Hall.
  assert (Hin : a ∈ seqZ 0 256) by (apply elem_of_seqZ; lia).
  specialize (Hall a (proj1 (list_elem_of_In _ _) Hin)).
  unfold threshold_checked in Hall. rewrite threshold_pixel_alpha.
  destruct (above_threshold a).
  - apply andb_prop in Hall as [H90 Hw].
    apply bool_decide_eq_true in H90, Hw.
    rewrite decide_False by lia. done.
  - apply bool_decide_eq_true in Hall. rewrite decide_True by done. done.
Qed.

Lemma threshold_pixel_range_witness :
  water_pixel (ColorScheme "Lava" (255, 100, 20) (180, 30, 0) (255, 180, 60))
    (threshold_pixel
       (ColorScheme "Lava" (255, 100, 20) (180, 30, 0) (255, 180, 60))
       (12, 34, 56, 200)).
Proof.
  apply (threshold_pixel_range
           (ColorScheme "Lava" (255, 100, 20) (180, 30, 0) (255, 180, 60))
           12 34 56 200).
  - unfold COLOR_SCHEMES. rewrite !elem_of_cons. right. right. by left.
  - lia.
Defined.

End Renderer.


(** ** A position that is not a number, on doubles *)

Section NotANumber.

Local Open Scope js_scope.
Import FloatOrder.
#[local] Existing Instance float_number.

Lemma is_nan_true (x : float) : is_nan x = true ↔ Prim2SF x = S754_nan.
Proof.
  pose proof (is_nan_spec x) as Hs. destruct (is_nan x).
  - split; [|done]. intros _. destruct (Prim2SF x) eqn:E; try done;
      (assert (true = false) by (apply Hs; done)); done.
  - split; [done|]. intros E. by apply Hs in E.
Qed.

Lemma nan_sub (a b : float) :
  is_nan a || is_nan b = true → is_nan (PrimFloat.sub a b) = true.
Proof.
  rewrite orb_true_iff, !is_nan_true, sub_spec. intros [-> | ->]; [done|].
  by destruct (Prim2SF a).
Qed.

Lemma nan_square (a : float) :
  is_nan a = true → is_nan (PrimFloat.mul a a) = true.
Proof. rewrite !is_nan_true, mul_spec. by intros ->. Qed.

Lemma nan_add (a b : float) :
  is_nan a || is_nan b = true → is_nan (PrimFloat.add a b) = true.
Proof.
  rewrite orb_true_iff, !is_nan_true, add_spec. intros [-> | ->]; [done|].
  by destruct (Prim2SF a).
Qed.

Lemma nan_ltb (a b : float) :
  is_nan a || is_nan b = true → PrimFloat.ltb a b = false.
Proof.
  rewrite orb_true_iff, !is_nan_true, FloatAxioms.ltb_spec.
  intros [-> | ->]; [done|]. by destruct (Prim2SF a).
Qed.

(** One of the four coordinates of the pair is NaN. *)
Definition nan_position (pi pj : particle float) : bool :=
  is_nan (p_x pi) || is_nan (p_y pi) || is_nan (p_x pj) || is_nan (p_y pj).

Lemma nan_pair_r2 (pi pj : particle float) :
  nan_position pi pj = true → is_nan (pair_r2 pi pj) = true.
Proof.
  unfold nan_position, pair_r2. float_ops. rewrite !orb_true_iff.
  intros [[[Hn|Hn]|Hn]|Hn]; apply nan_add, orb_true_iff.
  - left. apply nan_square, nan_sub. rewrite Hn. apply orb_true_r.
  - right. apply nan_square, nan_sub. rewrite Hn. apply orb_true_r.
  - left. apply nan_square, nan_sub. rewrite Hn. done.
  - right. apply nan_square, nan_sub. rewrite Hn. done.
Qed.

(** X27: a particle with a NaN coordinate is outside every radius: the
    density pass adds nothing for a pair it belongs to, and the force pass
    no pressure and no viscosity force, whichever of the two particles the
    pass is working on; so a NaN position does not spread to the densities
    and pair forces of the other particles. *)
Theorem nan_position_is_contained
    (pi pj : particle float) (acc : float) (forces : pair_acc float) :
  nan_position pi pj = true →
  density_term pi pj acc = acc ∧
  force_term pi pj forces = forces ∧
  interacts pi pj = false.
Proof.
  intros Hn. apply nan_pair_r2 in Hn.
  assert (Hlt : PrimFloat.ltb (pair_r2 pi pj) H2 = false).
  { apply nan_ltb. rewrite Hn. done. }
  split; [|split].
  - unfold density_term. fold (pair_r2 pi pj). float_ops. rewrite Hlt. done.
  - unfold force_term. destruct forces as [[[fpx fpy] fvx] fvy].
    fold (pair_r2 pi pj). float_ops. rewrite Hlt. done.
  - unfold interacts. float_ops. rewrite Hlt. done.
Qed.

Lemma nan_position_is_contained_witness :
  density_term (createParticle nan 100 0 0)%float
    (createParticle 110 100 0 0)%float 5%float = 5%float ∧
  force_term (createParticle nan 100 0 0)%float
    (createParticle 110 100 0 0)%float (1, 2, 3, 4)%float
  = (1, 2, 3, 4)%float ∧
  interacts (createParticle nan 100 0 0)%float
    (createParticle 110 100 0 0)%float = false.
Proof.
  apply (nan_position_is_contained
           (createParticle nan 100 0 0)%float
           (createParticle 110 100 0 0)%float 5%float (1, 2, 3, 4)%float).
  vm_compute. reflexivity.
Defined.

End NotANumber.
